(** * pacman-AI: the PPO training loop (ppo.py) and the DQN agent (agent.py)

    A shallow embedding of the two training scripts.

    - Numbers.  Python floats and torch tensors are idealised: a scalar is a
      real number ([R]) and a one-dimensional tensor is a [list] of scalars;
      rounding, [nan] and [inf] are outside the model.  Python integers
      (counters, lengths, hyper-parameters) are [Z].
    - Effects.  The environment, the random source, the two networks and the
      plotter are the mutable objects of ppo.py; they are the fields of a
      [world] record that every operation threads explicitly.
    - Loops.  A [while] loop is a function with a fuel argument that returns
      [None] when the fuel runs out; a [for _ in range(n)] loop is
      structural recursion on [n].
    - Collaborators.  [GameInstance], [FeedForwardNN], [MultivariateNormal],
      [Adam] and [plot] are imported by the scripts and are parameters here
      (type classes); nothing is assumed about them beyond their types. *)

From Stdlib Require Import List ZArith Lia Bool Reals Lra.
Import ListNotations.

Set Implicit Arguments.

(** ** Keys (pygame.K_UP, pygame.K_RIGHT, pygame.K_DOWN, pygame.K_LEFT) *)

Inductive Key : Type := K_UP | K_RIGHT | K_DOWN | K_LEFT.

(** The [match move: case 0 ... case 3] block that follows
    [direction = pygame.K_UP] (ppo.py) or [final_move = pygame.K_UP]
    (agent.py): any other value leaves the initial [K_UP]. *)
Definition key_of_move (move : Z) : Key :=
  match move with
  | 0%Z => K_UP
  | 1%Z => K_RIGHT
  | 2%Z => K_DOWN
  | 3%Z => K_LEFT
  | _ => K_UP
  end.

(** ** Scalars

    [compute_rtgs] only adds and multiplies, so it is written over any type
    of numbers: [R] for the training loop, [Z] to run it on small inputs. *)

Class Number (T : Type) : Type :=
  { zero : T;
    add : T -> T -> T;
    mul : T -> T -> T }.

#[export] Instance Number_R : Number R :=
  {| zero := 0%R; add := Rplus; mul := Rmult |}.

#[export] Instance Number_Z : Number Z :=
  {| zero := 0%Z; add := Z.add; mul := Z.mul |}.

(** ** Rewards-to-go (PPO.compute_rtgs) *)

Module Rtgs.

Section ComputeRtgs.

Context {T : Type} `{NumT : Number T}.
Variable gamma : T.

(** Loop state of the inner [for rew in reversed(ep_rews)]. *)
Definition rtg_step (st : T * list T) (rew : T) : T * list T :=
  let discounted_reward := add rew (mul (fst st) gamma) in
  (discounted_reward, discounted_reward :: snd st).   (* insert(0, _) *)

(** One pass of the outer [for ep_rews in reversed(batch_rews)]:
    [discounted_reward = 0], then the inner loop. *)
Definition rtg_episode (batch_rtgs : list T) (ep_rews : list T) : list T :=
  snd (fold_left rtg_step (rev ep_rews) (zero, batch_rtgs)).

(** [torch.tensor(batch_rtgs, dtype=torch.float)] keeps order and length;
    the tensor is the list. *)
Definition compute_rtgs (batch_rews : list (list T)) : list T :=
  fold_left rtg_episode (rev batch_rews) [].

(** The discounted sums of one episode, by recursion on the episode
    (used to describe what the loops compute). *)
Fixpoint discounted (ep_rews : list T) : list T :=
  match ep_rews with
  | [] => []
  | r :: rest =>
      let g := discounted rest in
      add r (mul (hd zero g) gamma) :: g
  end.

Lemma rtg_inner_loop (l : list T) (acc : list T) :
  fold_left rtg_step (rev l) (zero, acc)
  = (hd zero (discounted l), discounted l ++ acc).
Proof.
  induction l as [|r l IH]; [reflexivity|].
  simpl rev. rewrite fold_left_app, IH. reflexivity.
Qed.

Lemma rtg_episode_eq (acc ep : list T) :
  rtg_episode acc ep = discounted ep ++ acc.
Proof. unfold rtg_episode. now rewrite rtg_inner_loop. Qed.

Lemma rtg_outer_loop (eps : list (list T)) (acc : list T) :
  fold_left rtg_episode (rev eps) acc = concat (map discounted eps) ++ acc.
Proof.
  revert acc. induction eps as [|ep eps IH]; intro acc; [reflexivity|].
  simpl rev. rewrite fold_left_app. simpl fold_left.
  rewrite rtg_episode_eq, IH. simpl. now rewrite app_assoc.
Qed.

Lemma compute_rtgs_concat (batch_rews : list (list T)) :
  compute_rtgs batch_rews = concat (map discounted batch_rews).
Proof. unfold compute_rtgs. now rewrite rtg_outer_loop, app_nil_r. Qed.

Lemma compute_rtgs_single (ep : list T) :
  compute_rtgs [ep] = discounted ep.
Proof. rewrite compute_rtgs_concat. simpl. apply app_nil_r. Qed.

Lemma discounted_length (ep : list T) : length (discounted ep) = length ep.
Proof. induction ep; simpl; congruence. Qed.

Lemma compute_rtgs_length (batch_rews : list (list T)) :
  length (compute_rtgs batch_rews) = length (concat batch_rews).
Proof.
  rewrite compute_rtgs_concat.
  induction batch_rews as [|ep eps IH]; [reflexivity|].
  simpl. rewrite !length_app, discounted_length. congruence.
Qed.

Lemma discounted_nth (ep : list T) (i : nat) :
  i < length ep ->
  nth i (discounted ep) zero
  = add (nth i ep zero) (mul (nth (S i) (discounted ep) zero) gamma).
Proof.
  revert i. induction ep as [|r ep IH]; intros i Hi; simpl in Hi; [lia|].
  destruct i as [|i].
  - simpl. destruct (discounted ep); reflexivity.
  - change (nth (S i) (discounted (r :: ep)) zero)
      with (nth i (discounted ep) zero).
    change (nth (S (S i)) (discounted (r :: ep)) zero)
      with (nth (S i) (discounted ep) zero).
    change (nth (S i) (r :: ep) zero) with (nth i ep zero).
    apply IH. lia.
Qed.

End ComputeRtgs.

Example compute_rtgs_Z :
  compute_rtgs 2%Z [[1; 1; 1]; [5]; [3; 4]]%Z = [7; 3; 1; 5; 11; 4]%Z.
Proof. reflexivity. Qed.

(** The example of the specification: rewards [1,1,1] with discount 0.5. *)
Example compute_rtgs_half :
  compute_rtgs (1 / 2)%R [[1; 1; 1]]%R = [7 / 4; 3 / 2; 1]%R.
Proof.
  unfold compute_rtgs, rtg_episode, rtg_step. simpl.
  repeat (f_equal; try lra).
Qed.

(** C1.  The rewards-to-go of a batch are the rewards-to-go of its episodes,
    one after the other in the order of the batch; the rewards-to-go
    [g0..gn] of an episode [r0..rn] are as many as its rewards, in the same
    order, with [gi = ri + gamma * g(i+1)] below the last index and
    [gn = rn] at the last one. *)
Theorem compute_rtgs_recurrence (gamma : R) (batch_rews : list (list R)) :
  compute_rtgs gamma batch_rews
  = concat (map (fun ep_rews => compute_rtgs gamma [ep_rews]) batch_rews)
  /\ forall ep_rews : list R,
       let g := compute_rtgs gamma [ep_rews] in
       length g = length ep_rews
       /\ forall i : nat,
            (S i < length ep_rews ->
             nth i g 0%R = (nth i ep_rews 0 + gamma * nth (S i) g 0)%R)
            /\ (S i = length ep_rews -> nth i g 0%R = nth i ep_rews 0%R).
Proof.
  split.
  - rewrite compute_rtgs_concat. f_equal. apply map_ext.
    intro ep. now rewrite compute_rtgs_single.
  - intros ep g. subst g. rewrite compute_rtgs_single.
    split; [apply discounted_length|].
    intro i.
    assert (Hnth : (i < length ep)%nat ->
                   nth i (discounted gamma ep) 0%R
                   = (nth i ep 0 + nth (S i) (discounted gamma ep) 0 * gamma)%R)
      by exact (discounted_nth gamma ep (i := i)).
    split; intro Hi; rewrite Hnth by lia.
    + apply f_equal, Rmult_comm.
    + rewrite (nth_overflow (discounted gamma ep))
        by (rewrite discounted_length; lia).
      lra.
Qed.

Lemma compute_rtgs_recurrence_witness :
  let g := compute_rtgs (1 / 2)%R [[1; 1; 1]]%R in
  nth 0 g 0%R = (1 + 1 / 2 * nth 1 g 0)%R /\ nth 2 g 0%R = 1%R.
Proof.
  destruct (compute_rtgs_recurrence (1 / 2) [[1; 1; 1]]%R) as [_ Hep].
  destruct (Hep [1; 1; 1]%R) as [_ Hi].
  split.
  - apply (proj1 (Hi 0%nat)). simpl. lia.
  - apply (proj2 (Hi 2%nat)). reflexivity.
Defined.

End Rtgs.

(** ** One-dimensional tensors of reals

    The torch operations that [PPO.learn] applies to its batch tensors.  All
    of them are applied to tensors of one shape in ppo.py; on lists of
    different lengths [map2] stops at the shorter one. *)

Module Tensor.

Local Open Scope R_scope.

Section Map2.
Variables A B C : Type.
Variable f : A -> B -> C.

Fixpoint map2 (l1 : list A) (l2 : list B) : list C :=
  match l1, l2 with
  | x :: l1', y :: l2' => f x y :: map2 l1' l2'
  | _, _ => []
  end.

Lemma map2_combine (l1 : list A) (l2 : list B) :
  map2 l1 l2 = map (fun p => f (fst p) (snd p)) (combine l1 l2).
Proof.
  revert l2. induction l1 as [|x l1 IH]; intros [|y l2]; simpl; try reflexivity.
  now rewrite IH.
Qed.

Lemma map2_length (l1 : list A) (l2 : list B) :
  length l1 = length l2 -> length (map2 l1 l2) = length l1.
Proof.
  revert l2. induction l1 as [|x l1 IH]; intros [|y l2]; simpl; intro E;
    try reflexivity; try discriminate.
  f_equal. apply IH. congruence.
Qed.
End Map2.

(** [a - b], [a * b], [torch.min(a, b)] on tensors. *)
Definition tsub : list R -> list R -> list R := map2 Rminus.
Definition tmul : list R -> list R -> list R := map2 Rmult.
Definition tmin : list R -> list R -> list R := map2 Rmin.
(** [-a], [torch.exp(a)]. *)
Definition tneg : list R -> list R := map Ropp.
Definition texp : list R -> list R := map exp.

(** [a.sum()], [a.mean()]. *)
Definition tsum (a : list R) : R := fold_right Rplus 0 a.
Definition mean (a : list R) : R := tsum a / INR (length a).

(** Sum of the squared deviations from the mean. *)
Definition sq_dev (a : list R) : R :=
  tsum (map (fun x => (x - mean a) * (x - mean a)) a).

(** [a.std()].  torch's default is the unbiased estimator (Bessel's
    correction, [correction=1]): the squared deviations are divided by
    [N - 1].  With fewer than two elements torch yields [nan], which the
    reals do not have: statements about [std] are for two elements or
    more. *)
Definition std (a : list R) : R := sqrt (sq_dev a / (INR (length a) - 1)).

(** The population standard deviation (divisor [N]), which ppo.py does not
    compute: the quantity the specification names. *)
Definition population_std (a : list R) : R :=
  sqrt (sq_dev a / INR (length a)).

(** [torch.clamp(x, lo, hi)]: [min(max(x, lo), hi)]. *)
Definition clamp (lo hi x : R) : R := Rmin (Rmax x lo) hi.

(** [nn.MSELoss()(v, target)] with the default mean reduction. *)
Definition mse_loss (v target : list R) : R :=
  mean (map (fun d => d * d) (tsub v target)).

(** The [1e-10] of the advantage normalisation. *)
Definition eps_norm : R := 1 / 10000000000.

(** [(A_k - A_k.mean()) / (A_k.std() + 1e-10)]: the scalars are broadcast. *)
Definition normalize (A_k : list R) : list R :=
  map (fun a => (a - mean A_k) / (std A_k + eps_norm)) A_k.


(** [A_k = batch_rtgs - V.detach()] followed by the normalisation. *)
Definition advantages (batch_rtgs V : list R) : list R :=
  normalize (tsub batch_rtgs V).

(** The clipped surrogate loss of one inner epoch:
    [ratios = exp(curr - old)], [surr1 = ratios * A_k],
    [surr2 = clamp(ratios, 1 - clip, 1 + clip) * A_k],
    [(-min(surr1, surr2)).mean()]. *)
Definition ratios (curr_log_probs batch_log_probs : list R) : list R :=
  texp (tsub curr_log_probs batch_log_probs).

Definition surr1 (rs A_k : list R) : list R := tmul rs A_k.

Definition surr2 (clip : R) (rs A_k : list R) : list R :=
  tmul (map (clamp (1 - clip) (1 + clip)) rs) A_k.

Definition neg_min_surr (clip : R) (rs A_k : list R) : list R :=
  tneg (tmin (surr1 rs A_k) (surr2 clip rs A_k)).

Definition actor_loss (clip : R) (curr_log_probs batch_log_probs A_k : list R)
  : R :=
  mean (neg_min_surr clip (ratios curr_log_probs batch_log_probs) A_k).

(** One sample of the clipped surrogate, as the specification writes it:
    [-min(r * A, clip(r, 1 - eps, 1 + eps) * A)] with
    [r = exp(curr - old)]. *)
Definition sample_loss (clip curr old A : R) : R :=
  - Rmin (exp (curr - old) * A)
         (clamp (1 - clip) (1 + clip) (exp (curr - old)) * A).

Lemma neg_min_surr_samples (clip : R) (rs A_k : list R) :
  neg_min_surr clip rs A_k
  = map2 (fun r a => - Rmin (r * a) (clamp (1 - clip) (1 + clip) r * a))
      rs A_k.
Proof.
  unfold neg_min_surr, surr1, surr2, tneg, tmin, tmul.
  revert A_k. induction rs as [|r rs IH]; intros [|a A_k]; simpl;
    try reflexivity.
  now rewrite IH.
Qed.

Lemma ratios_samples (curr old : list R) :
  ratios curr old = map2 (fun c o => exp (c - o)) curr old.
Proof.
  unfold ratios, texp, tsub.
  revert old. induction curr as [|c curr IH]; intros [|o old]; simpl;
    try reflexivity.
  now rewrite IH.
Qed.

Lemma actor_loss_samples (clip : R) (curr old A_k : list R) :
  actor_loss clip curr old A_k
  = mean (map2 (fun co a => sample_loss clip (fst co) (snd co) a)
            (combine curr old) A_k).
Proof.
  unfold actor_loss. f_equal.
  rewrite neg_min_surr_samples, ratios_samples.
  revert old A_k.
  induction curr as [|c curr IH]; intros [|o old] [|a A_k]; simpl;
    try reflexivity.
  now rewrite IH.
Qed.

(** The hand-computed table of the specification: clipping active from
    above, clipping inactive, clipping active from below with a negative
    advantage.  Ratios are given as [exp(curr - old)]. *)
Lemma sample_loss_ratio (clip curr old A r : R) :
  exp (curr - old) = r ->
  sample_loss clip curr old A
  = - Rmin (r * A) (clamp (1 - clip) (1 + clip) r * A).
Proof. intros <-. reflexivity. Qed.

Example surrogate_clipped_above (curr old : R) :
  exp (curr - old) = 3 / 2 -> sample_loss (2 / 10) curr old 1 = - (12 / 10).
Proof.
  intro E. rewrite (sample_loss_ratio _ _ _ _ E). unfold clamp, Rmin, Rmax.
  repeat (destruct (Rle_dec _ _); try lra).
Qed.

Example surrogate_unclipped (curr old : R) :
  exp (curr - old) = 11 / 10 -> sample_loss (2 / 10) curr old 2 = - (22 / 10).
Proof.
  intro E. rewrite (sample_loss_ratio _ _ _ _ E). unfold clamp, Rmin, Rmax.
  repeat (destruct (Rle_dec _ _); try lra).
Qed.

Example surrogate_clipped_below (curr old : R) :
  exp (curr - old) = 1 / 2 -> sample_loss (2 / 10) curr old (- 1) = 8 / 10.
Proof.
  intro E. rewrite (sample_loss_ratio _ _ _ _ E). unfold clamp, Rmin, Rmax.
  repeat (destruct (Rle_dec _ _); try lra).
Qed.

(** *** Facts about sums, means and deviations *)

Lemma tsum_shift_scale (m d : R) (a : list R) :
  tsum (map (fun x => (x - m) / d) a) = (tsum a - INR (length a) * m) / d.
Proof.
  induction a as [|x a IH].
  - simpl. unfold Rdiv. ring.
  - cbn [map tsum fold_right length]. fold (tsum (map (fun x => (x - m) / d) a)).
    fold (tsum a). rewrite IH, S_INR. unfold Rdiv. ring.
Qed.






Lemma INR_length_pos (a : list R) : (1 <= length a)%nat -> 0 < INR (length a).
Proof. intro H. apply lt_0_INR. lia. Qed.

Lemma mean_normalize (a : list R) :
  (1 <= length a)%nat -> mean (normalize a) = 0.
Proof.
  intro Hn. pose proof (INR_length_pos a Hn) as Hpos.
  unfold mean at 1, normalize. rewrite tsum_shift_scale, length_map.
  replace (tsum a - INR (length a) * mean a) with 0.
  - unfold Rdiv. ring.
  - unfold mean. field. lra.
Qed.



(** The two deviations differ on every batch that is not constant. *)
Lemma std_gt_population (a : list R) :
  (2 <= length a)%nat -> 0 < sq_dev a -> population_std a < std a.
Proof.
  intros Hn Hdev. unfold population_std, std.
  assert (Hn1 : 1 < INR (length a)).
  { apply le_INR in Hn. simpl in Hn. lra. }
  apply sqrt_lt_1_alt. split.
  - apply Rmult_le_pos; [lra|]. apply Rlt_le, Rinv_0_lt_compat. lra.
  - apply Rmult_lt_compat_l; [exact Hdev|].
    apply Rinv_lt_contravar; [nra|lra].
Qed.

(** *** A batch of two samples: rewards-to-go [0, 2], critic values [0, 0] *)









End Tensor.

(** ** More on the rewards-to-go *)

Module RtgsFacts.

Import Rtgs Tensor.
Local Open Scope R_scope.

(** X4.  Episodes do not see each other: the rewards-to-go of two batches
    put end to end are those of the first followed by those of the
    second. *)
Lemma compute_rtgs_app (T : Type) `{Number T} (gamma : T)
  (b1 b2 : list (list T)) :
  compute_rtgs gamma (b1 ++ b2)
  = compute_rtgs gamma b1 ++ compute_rtgs gamma b2.
Proof. now rewrite !compute_rtgs_concat, map_app, concat_app. Qed.

(** [sum_{k < n} gamma^k * l[k]] *)
Definition discounted_sum (gamma : R) (l : list R) : R :=
  tsum (map (fun k => gamma ^ k * nth k l 0) (seq 0 (length l))).

Lemma discounted_sum_cons (gamma r : R) (l : list R) :
  discounted_sum gamma (r :: l) = r + gamma * discounted_sum gamma l.
Proof.
  unfold discounted_sum. cbn [length]. rewrite <- cons_seq, <- seq_shift.
  cbn [map tsum fold_right nth]. rewrite map_map. cbn [nth].
  fold (tsum (map (fun k => gamma ^ S k * nth k l 0) (seq 0 (length l)))).
  fold (tsum (map (fun k => gamma ^ k * nth k l 0) (seq 0 (length l)))).
  assert (E : forall ks,
             tsum (map (fun k => gamma ^ S k * nth k l 0) ks)
             = gamma * tsum (map (fun k => gamma ^ k * nth k l 0) ks)).
  { induction ks as [|k ks IH]; cbn [map tsum fold_right]; [ring|].
    unfold tsum in IH. rewrite IH. simpl. ring. }
  rewrite E. simpl. ring.
Qed.

Lemma discounted_hd (gamma : R) (ep : list R) :
  hd 0 (discounted gamma ep) = discounted_sum gamma ep.
Proof.
  induction ep as [|r ep IH]; [reflexivity|].
  rewrite discounted_sum_cons, <- IH. simpl. ring.
Qed.

Lemma discounted_skipn (gamma : R) (i : nat) (ep : list R) :
  skipn i (discounted gamma ep) = discounted gamma (skipn i ep).
Proof.
  revert ep. induction i as [|i IH]; intros [|r ep]; try reflexivity.
  simpl. apply IH.
Qed.

Lemma nth_hd_skipn (A : Type) (i : nat) (l : list A) (d : A) :
  nth i l d = hd d (skipn i l).
Proof.
  revert l. induction i as [|i IH]; intros [|x l]; try reflexivity.
  simpl. apply IH.
Qed.

(** X1.  The rewards-to-go in closed form: at every index [i] of an
    episode, [g_i] is the sum over the rest of the episode of
    [gamma^k * r_(i+k)]. *)
Theorem compute_rtgs_closed_form (gamma : R) (ep_rews : list R) (i : nat) :
  nth i (compute_rtgs gamma [ep_rews]) 0
  = discounted_sum gamma (skipn i ep_rews).
Proof.
  rewrite compute_rtgs_single, nth_hd_skipn, discounted_skipn.
  apply discounted_hd.
Qed.

Lemma discounted_bound (gamma M : R) (ep : list R) :
  0 <= gamma < 1 -> 0 <= M ->
  Forall (fun r => Rabs r <= M) ep ->
  Rabs (hd 0 (discounted gamma ep)) <= M / (1 - gamma)
  /\ Forall (fun g => Rabs g <= M / (1 - gamma)) (discounted gamma ep).
Proof.
  intros Hg HM. 
  assert (Hq : 0 <= M / (1 - gamma)).
  { apply Rmult_le_pos; [exact HM|]. apply Rlt_le, Rinv_0_lt_compat. lra. }
  induction 1 as [|r ep Hr _ [IHh IHall]].
  - simpl. rewrite Rabs_R0. split; [exact Hq|constructor].
  - assert (Hhd : Rabs (r + hd 0 (discounted gamma ep) * gamma)
                  <= M / (1 - gamma)).
    { eapply Rle_trans; [apply Rabs_triang|].
      rewrite Rabs_mult, (Rabs_pos_eq gamma) by lra.
      replace (M / (1 - gamma)) with (M + M / (1 - gamma) * gamma)
        by (field; lra).
      apply Rplus_le_compat; [exact Hr|].
      apply Rmult_le_compat_r; [lra|exact IHh]. }
    split; [exact Hhd|]. constructor; [exact Hhd|exact IHall].
Qed.

(** X2.  With a discount in [0, 1) and rewards bounded by [M] in absolute
    value, every reward-to-go of the batch is bounded by [M / (1 - gamma)]. *)
Theorem compute_rtgs_bounded (gamma M : R) (batch_rews : list (list R)) :
  0 <= gamma < 1 -> 0 <= M ->
  Forall (Forall (fun r => Rabs r <= M)) batch_rews ->
  Forall (fun g => Rabs g <= M / (1 - gamma))
    (compute_rtgs gamma batch_rews).
Proof.
  intros Hg HM Hall. rewrite compute_rtgs_concat.
  induction Hall as [|ep eps Hep _ IH]; [constructor|].
  simpl. apply Forall_app. split; [|exact IH].
  exact (proj2 (discounted_bound Hg HM Hep)).
Qed.

Lemma compute_rtgs_bounded_witness :
  Forall (fun g => Rabs g <= 1 / (1 - 1 / 2))
    (compute_rtgs (1 / 2) [[1; -1]; [1]]).
Proof.
  apply compute_rtgs_bounded.
  - lra.
  - lra.
  - assert (H1 : Rabs 1 <= 1) by (rewrite Rabs_pos_eq; lra).
    assert (H2 : Rabs (- 1) <= 1)
      by (unfold Rabs; destruct (Rcase_abs _); lra).
    repeat (constructor; try assumption).
Defined.

(** X3.  With discount [0] the rewards-to-go are the rewards, episode after
    episode. *)
Theorem compute_rtgs_no_discount_factor (batch_rews : list (list R)) :
  compute_rtgs 0 batch_rews = concat batch_rews.
Proof.
  rewrite compute_rtgs_concat. f_equal.
  rewrite <- (map_id batch_rews) at 2. apply map_ext. intro ep.
  induction ep as [|r ep IH]; [reflexivity|].
  cbn [discounted]. rewrite IH. f_equal. simpl. ring.
Qed.

End RtgsFacts.

(** ** More on the tensor operations *)

Module TensorFacts.

Import Tensor.
Local Open Scope R_scope.

Lemma map2_snoc (A B C : Type) (f : A -> B -> C) (l1 : list A) (l2 : list B)
  (x : A) (y : B) :
  length l1 = length l2 ->
  map2 f (l1 ++ [x]) (l2 ++ [y]) = map2 f l1 l2 ++ [f x y].
Proof.
  revert l2. induction l1 as [|a l1 IH]; intros [|b l2] E;
    try discriminate; [reflexivity|].
  simpl. f_equal. apply IH. now injection E.
Qed.

Lemma mean_neg (a : list R) : mean (tneg a) = - mean a.
Proof.
  unfold mean, tneg. rewrite length_map.
  assert (E : tsum (map Ropp a) = - tsum a).
  { induction a as [|x a IH]; cbn [map tsum fold_right]; [ring|].
    unfold tsum in IH. rewrite IH. ring. }
  rewrite E. unfold Rdiv. ring.
Qed.

Lemma clamp_one (clip : R) : 0 <= clip -> clamp (1 - clip) (1 + clip) 1 = 1.
Proof.
  intro Hc. unfold clamp, Rmax, Rmin.
  repeat (destruct (Rle_dec _ _); try lra).
Qed.

(** Ratios of log-probabilities against themselves. *)
Lemma ratios_same (l : list R) : ratios l l = map (fun _ => 1) l.
Proof.
  rewrite ratios_samples.
  induction l as [|x l IH]; [reflexivity|].
  simpl. rewrite IH. f_equal.
  replace (x - x) with 0 by ring. apply exp_0.
Qed.

Lemma actor_loss_same (clip : R) (l A_k : list R) :
  0 <= clip -> length l = length A_k ->
  actor_loss clip l l A_k = - mean A_k.
Proof.
  intros Hc Hlen. rewrite <- mean_neg. unfold actor_loss. f_equal.
  rewrite neg_min_surr_samples, ratios_same. unfold tneg.
  revert A_k Hlen. induction l as [|x l IH]; intros [|a A_k] E;
    try discriminate; [reflexivity|].
  simpl. rewrite IH by now injection E. f_equal.
  rewrite clamp_one by exact Hc. rewrite Rmult_1_l.
  unfold Rmin. destruct (Rle_dec a a); reflexivity.
Qed.

End TensorFacts.

(** ** The PPO trainer (ppo.py) *)

Module PPO.

Import Rtgs Tensor.

(** [_init_hyperparameters]: the fields that [rollout], [compute_rtgs] and
    [learn] read ([lr], [hidden_dim], [hidden_count] and [load_model] only
    configure the collaborators). *)
Record hyperparameters (T : Type) : Type :=
  { timesteps_per_batch : Z;
    gamma : T;
    n_updates_per_iteration : Z;
    clip : R }.

Definition init_hyperparameters : hyperparameters R :=
  {| timesteps_per_batch := 10000;
     gamma := (95 / 100)%R;
     n_updates_per_iteration := 5;
     clip := 2 / 10 |}.

(** What [rollout] asks of its collaborators: the environment
    ([reset], [step], [get_score]), the actor network applied to one
    observation, and the multivariate normal built from its output
    ([sample], [log_prob]); [act_argmax] is [action.argmax()]. *)
Class Collaborators (Env Rng Params Obs Act Mean LogP T Score : Type) : Type :=
  { env_reset : Env -> Obs * Env;
    env_step : Key -> Env -> (Obs * T * bool) * Env;
    env_get_score : Env -> Score;
    actor_forward : Params -> Obs -> Mean;
    dist_sample : Mean -> Rng -> Act * Rng;
    dist_log_prob : Mean -> Act -> LogP;
    act_argmax : Act -> Z }.

Section Rollout.

Context {Env Rng Params Obs Act Mean LogP T Score : Type}.
Context `{NumT : Number T}.
Context `{Col : Collaborators Env Rng Params Obs Act Mean LogP T Score}.
Variable hp : hyperparameters T.

(** The objects that the trainer mutates: [self.env], the global random
    source, [self.actor], [self.critic] (with their optimizers) and the
    scores handed to [plot]. *)
Record world : Type :=
  { w_env : Env;
    w_rng : Rng;
    w_actor : Params;
    w_critic : Params;
    w_plots : list Score }.

Definition set_env (e : Env) (w : world) : world :=
  {| w_env := e; w_rng := w_rng w; w_actor := w_actor w;
     w_critic := w_critic w; w_plots := w_plots w |}.

Definition set_rng (g : Rng) (w : world) : world :=
  {| w_env := w_env w; w_rng := g; w_actor := w_actor w;
     w_critic := w_critic w; w_plots := w_plots w |}.

Definition set_actor (p : Params) (w : world) : world :=
  {| w_env := w_env w; w_rng := w_rng w; w_actor := p;
     w_critic := w_critic w; w_plots := w_plots w |}.

Definition set_critic (p : Params) (w : world) : world :=
  {| w_env := w_env w; w_rng := w_rng w; w_actor := w_actor w;
     w_critic := p; w_plots := w_plots w |}.

(** [plot(score)] *)
Definition plot (s : Score) (w : world) : world :=
  {| w_env := w_env w; w_rng := w_rng w; w_actor := w_actor w;
     w_critic := w_critic w; w_plots := w_plots w ++ [s] |}.

(** [get_action]: the mean of the actor, a sample of the distribution and
    the log-probability of that sample. *)
Definition get_action (obs : Obs) (w : world) : (Act * LogP) * world :=
  let mean := actor_forward (w_actor w) obs in
  let '(action, g) := dist_sample mean (w_rng w) in
  let log_prob := dist_log_prob mean action in
  ((action, log_prob), set_rng g w).

(** The batch accumulators of [rollout], its counter [t], and the world. *)
Record acc : Type :=
  { batch_obs : list Obs;
    batch_acts : list Act;
    batch_log_probs : list LogP;
    batch_rews : list (list T);
    batch_lens : list Z;
    t : Z;
    wld : world }.

(** The variables of one episode. *)
Record episode : Type :=
  { ep_rews : list T;
    obs : Obs;
    done : bool;
    ep_t : Z }.

(** Body of [while(not done)]. *)
Definition episode_body (a : acc) (e : episode) : acc * episode :=
  let ep_t' := (ep_t e + 1)%Z in
  let t' := (t a + 1)%Z in
  let batch_obs' := batch_obs a ++ [obs e] in
  let '((action, log_prob), w1) := get_action (obs e) (wld a) in
  let move := act_argmax action in
  let direction := key_of_move move in
  let '((obs', rew, done'), env') := env_step direction (w_env w1) in
  ({| batch_obs := batch_obs';
      batch_acts := batch_acts a ++ [action];
      batch_log_probs := batch_log_probs a ++ [log_prob];
      batch_rews := batch_rews a;
      batch_lens := batch_lens a;
      t := t';
      wld := set_env env' w1 |},
   {| ep_rews := ep_rews e ++ [rew];
      obs := obs';
      done := done';
      ep_t := ep_t' |}).

Fixpoint episode_loop (fuel : nat) (a : acc) (e : episode)
  : option (acc * episode) :=
  match fuel with
  | O => None
  | S fuel' =>
      if done e then Some (a, e)
      else let '(a', e') := episode_body a e in episode_loop fuel' a' e'
  end.

(** [ep_rews = []; obs = self.env.reset(); done = False; ep_t = 0] *)
Definition episode_start (a : acc) : acc * episode :=
  let '(o, env') := env_reset (w_env (wld a)) in
  ({| batch_obs := batch_obs a; batch_acts := batch_acts a;
      batch_log_probs := batch_log_probs a; batch_rews := batch_rews a;
      batch_lens := batch_lens a; t := t a;
      wld := set_env env' (wld a) |},
   {| ep_rews := []; obs := o; done := false; ep_t := 0 |}).

(** After the episode: [plot(env.get_score())] (the module-level [env] is
    the object that [self.env] holds), [batch_lens.append(ep_t + 1)],
    [batch_rews.append(ep_rews)]. *)
Definition episode_end (a : acc) (e : episode) : acc :=
  {| batch_obs := batch_obs a; batch_acts := batch_acts a;
     batch_log_probs := batch_log_probs a;
     batch_rews := batch_rews a ++ [ep_rews e];
     batch_lens := batch_lens a ++ [(ep_t e + 1)%Z];
     t := t a;
     wld := plot (env_get_score (w_env (wld a))) (wld a) |}.

(** Body of [while t < self.timesteps_per_batch]. *)
Definition rollout_body (fuel : nat) (a : acc) : option acc :=
  let '(a0, e0) := episode_start a in
  match episode_loop fuel a0 e0 with
  | Some (a1, e1) => Some (episode_end a1 e1)
  | None => None
  end.

Fixpoint rollout_loop (fuel : nat) (a : acc) : option acc :=
  match fuel with
  | O => None
  | S fuel' =>
      if (t a <? timesteps_per_batch hp)%Z then
        match rollout_body fuel' a with
        | Some a' => rollout_loop fuel' a'
        | None => None
        end
      else Some a
  end.

Definition acc_init (w : world) : acc :=
  {| batch_obs := []; batch_acts := []; batch_log_probs := [];
     batch_rews := []; batch_lens := []; t := 0; wld := w |}.

(** What [rollout] returns.  [torch.tensor(_, dtype=torch.float)] keeps
    the order and the length of the three lists. *)
Record batch : Type :=
  { b_obs : list Obs;
    b_acts : list Act;
    b_log_probs : list LogP;
    b_rtgs : list T;
    b_lens : list Z }.

Definition batch_of (a : acc) : batch :=
  {| b_obs := batch_obs a;
     b_acts := batch_acts a;
     b_log_probs := batch_log_probs a;
     b_rtgs := compute_rtgs (gamma hp) (batch_rews a);
     b_lens := batch_lens a |}.

Definition rollout (fuel : nat) (w : world) : option (batch * world) :=
  match rollout_loop fuel (acc_init w) with
  | Some a => Some (batch_of a, wld a)
  | None => None
  end.

(** *** The two loops: fuel and invariants *)

Lemma episode_body_eq (a : acc) (e : episode) :
  exists action log_prob w1 obs' rew done' env',
    get_action (obs e) (wld a) = ((action, log_prob), w1)
    /\ env_step (key_of_move (act_argmax action)) (w_env w1)
       = ((obs', rew, done'), env')
    /\ episode_body a e
       = ({| batch_obs := batch_obs a ++ [obs e];
             batch_acts := batch_acts a ++ [action];
             batch_log_probs := batch_log_probs a ++ [log_prob];
             batch_rews := batch_rews a;
             batch_lens := batch_lens a;
             t := (t a + 1)%Z;
             wld := set_env env' w1 |},
          {| ep_rews := ep_rews e ++ [rew];
             obs := obs';
             done := done';
             ep_t := (ep_t e + 1)%Z |}).
Proof.
  unfold episode_body.
  destruct (get_action (obs e) (wld a)) as [[action log_prob] w1].
  destruct (env_step (key_of_move (act_argmax action)) (w_env w1))
    as [[[obs' rew] done'] env'] eqn:Hstep.
  exists action, log_prob, w1, obs', rew, done', env'.
  split; [reflexivity|]. split; [exact Hstep|reflexivity].
Qed.

Lemma get_action_actor (o : Obs) (w w' : world) (al : Act * LogP) :
  get_action o w = (al, w') ->
  w_actor w' = w_actor w /\ w_critic w' = w_critic w /\ w_env w' = w_env w.
Proof.
  unfold get_action.
  destruct (dist_sample (actor_forward (w_actor w) o) (w_rng w)) as [action g].
  intro E. injection E as _ <-. now repeat split.
Qed.

(** While rule for [while(not done)]. *)
Lemma episode_loop_inv (P : acc -> episode -> Prop) :
  (forall a e, done e = false -> P a e ->
               P (fst (episode_body a e)) (snd (episode_body a e))) ->
  forall fuel a e a' e',
    P a e -> episode_loop fuel a e = Some (a', e') ->
    P a' e' /\ done e' = true.
Proof.
  intros Hstep. induction fuel as [|fuel IH]; intros a e a' e' HP Hrun.
  - discriminate.
  - simpl in Hrun. destruct (done e) eqn:Hd.
    + injection Hrun as <- <-. now split.
    + specialize (Hstep a e Hd HP).
      destruct (episode_body a e) as [a1 e1]. now apply (IH a1 e1).
Qed.

(** While rule for [while t < self.timesteps_per_batch]. *)
Lemma rollout_loop_inv (Q : acc -> Prop) :
  (forall fuel a a', (t a < timesteps_per_batch hp)%Z -> Q a ->
                     rollout_body fuel a = Some a' -> Q a') ->
  forall fuel a a',
    Q a -> rollout_loop fuel a = Some a' ->
    Q a' /\ (timesteps_per_batch hp <= t a')%Z.
Proof.
  intros Hstep. induction fuel as [|fuel IH]; intros a a' HQ Hrun.
  - discriminate.
  - simpl in Hrun. destruct (Z.ltb_spec (t a) (timesteps_per_batch hp)) as [Hlt|Hge].
    + destruct (rollout_body fuel a) as [a1|] eqn:Hb; [|discriminate].
      apply (IH a1); [|exact Hrun]. now apply (Hstep fuel a).
    + injection Hrun as <-. now split.
Qed.

(** More fuel changes no result. *)
Lemma episode_loop_mono (fuel fuel' : nat) (a : acc) (e : episode) r :
  fuel <= fuel' -> episode_loop fuel a e = Some r ->
  episode_loop fuel' a e = Some r.
Proof.
  revert fuel' a e. induction fuel as [|fuel IH]; intros fuel' a e Hle Hrun.
  - discriminate.
  - destruct fuel' as [|fuel']; [lia|]. simpl in *.
    destruct (done e); [exact Hrun|].
    destruct (episode_body a e) as [a1 e1]. apply IH; [lia|exact Hrun].
Qed.

Lemma rollout_body_mono (fuel fuel' : nat) (a a' : acc) :
  fuel <= fuel' -> rollout_body fuel a = Some a' ->
  rollout_body fuel' a = Some a'.
Proof.
  unfold rollout_body. intros Hle.
  destruct (episode_start a) as [a0 e0].
  destruct (episode_loop fuel a0 e0) as [[a1 e1]|] eqn:Hrun; [|discriminate].
  intro E. rewrite (@episode_loop_mono fuel fuel' a0 e0 (a1, e1) Hle Hrun).
  exact E.
Qed.

Lemma rollout_loop_mono (fuel fuel' : nat) (a a' : acc) :
  fuel <= fuel' -> rollout_loop fuel a = Some a' ->
  rollout_loop fuel' a = Some a'.
Proof.
  revert fuel' a. induction fuel as [|fuel IH]; intros fuel' a Hle Hrun.
  - discriminate.
  - destruct fuel' as [|fuel']; [lia|]. simpl in *.
    destruct (t a <? timesteps_per_batch hp)%Z; [|exact Hrun].
    destruct (rollout_body fuel a) as [a1|] eqn:Hb; [|discriminate].
    assert (Hle' : fuel <= fuel') by lia.
    rewrite (@rollout_body_mono fuel fuel' a a1 Hle' Hb).
    apply IH; [lia|exact Hrun].
Qed.

Lemma rollout_mono (fuel fuel' : nat) (w : world) r :
  fuel <= fuel' -> rollout fuel w = Some r -> rollout fuel' w = Some r.
Proof.
  unfold rollout. intros Hle.
  destruct (rollout_loop fuel (acc_init w)) as [a|] eqn:Hrun; [|discriminate].
  intro E. rewrite (@rollout_loop_mono fuel fuel' (acc_init w) a Hle Hrun).
  exact E.
Qed.

(** *** What the accumulators hold

    [sampled theta os acts lps]: the three lists grew together, one call of
    [get_action] per position, made with actor parameters [theta]. *)
Inductive sampled (theta : Params)
  : list Obs -> list Act -> list LogP -> Prop :=
| sampled_nil : sampled theta [] [] []
| sampled_snoc os acts lps o a lp w w' :
    sampled theta os acts lps ->
    w_actor w = theta ->
    get_action o w = ((a, lp), w') ->
    sampled theta (os ++ [o]) (acts ++ [a]) (lps ++ [lp]).

Lemma sampled_length theta os acts lps :
  sampled theta os acts lps ->
  length acts = length os /\ length lps = length os.
Proof.
  induction 1 as [|os acts lps o a lp w w' _ [IHa IHl] _ _]; [now split|].
  rewrite !length_app. simpl. lia.
Qed.

Lemma sampled_nth theta os acts lps :
  sampled theta os acts lps ->
  forall i o, nth_error os i = Some o ->
    exists a lp w w',
      nth_error acts i = Some a /\ nth_error lps i = Some lp
      /\ w_actor w = theta /\ get_action o w = ((a, lp), w').
Proof.
  induction 1 as [|os acts lps o a lp w w' Hs IH Hw Hget]; intros i o' Hi.
  - destruct i; discriminate.
  - destruct (sampled_length Hs) as [Ha Hl].
    destruct (Nat.lt_ge_cases i (length os)) as [Hlt|Hge].
    + rewrite nth_error_app1 in Hi by exact Hlt.
      destruct (IH i o' Hi) as (a' & lp' & w1 & w2 & Ea & El & Ew & Eg).
      exists a', lp', w1, w2.
      rewrite !nth_error_app1 by lia. now repeat split.
    + rewrite nth_error_app2 in Hi by exact Hge.
      destruct (i - length os) as [|k] eqn:Ek.
      * injection Hi as <-. exists a, lp, w, w'.
        rewrite !nth_error_app2 by lia.
        replace (i - length acts) with 0 by lia.
        replace (i - length lps) with 0 by lia.
        now repeat split.
      * destruct k; discriminate.
Qed.

(** Invariant of [while(not done)], for an episode started from the
    accumulators [a0]. *)
Record ep_inv (theta : Params) (a0 a : acc) (e : episode) : Prop :=
  { ei_sampled :
      sampled theta (batch_obs a) (batch_acts a) (batch_log_probs a);
    ei_actor : w_actor (wld a) = theta;
    ei_rews : batch_rews a = batch_rews a0;
    ei_lens : batch_lens a = batch_lens a0;
    ei_t : t a = (t a0 + ep_t e)%Z;
    ei_ep_t : ep_t e = Z.of_nat (length (ep_rews e));
    ei_obs :
      length (batch_obs a) = length (batch_obs a0) + length (ep_rews e);
    ei_done : done e = true -> 1 <= length (ep_rews e) }.

(** Invariant of [while t < self.timesteps_per_batch]. *)
Record acc_inv (theta : Params) (a : acc) : Prop :=
  { ai_sampled :
      sampled theta (batch_obs a) (batch_acts a) (batch_log_probs a);
    ai_actor : w_actor (wld a) = theta;
    ai_t : t a = Z.of_nat (length (batch_obs a));
    ai_rews : length (concat (batch_rews a)) = length (batch_obs a);
    ai_lens :
      batch_lens a
      = map (fun ep => (Z.of_nat (length ep) + 1)%Z) (batch_rews a);
    ai_last :
      (batch_rews a = [] /\ t a = 0%Z)
      \/ exists eps last,
           batch_rews a = eps ++ [last]
           /\ 1 <= length last
           /\ (t a - Z.of_nat (length last) < timesteps_per_batch hp)%Z }.

Lemma ep_inv_body theta a0 a e :
  done e = false -> ep_inv theta a0 a e ->
  ep_inv theta a0 (fst (episode_body a e)) (snd (episode_body a e)).
Proof.
  intros _ [Hs Hw Hr Hl Ht Hept Ho _].
  destruct (episode_body_eq a e)
    as (action & lp & w1 & o' & rew & d' & env' & Hget & _ & ->).
  destruct (get_action_actor _ _ Hget) as (Hact & _ & _).
  split; simpl; try assumption.
  - now apply sampled_snoc with (w := wld a) (w' := w1).
  - congruence.
  - lia.
  - rewrite length_app. simpl. lia.
  - rewrite !length_app. simpl. lia.
  - intros _. rewrite length_app. simpl. lia.
Qed.

Lemma ep_inv_start theta a :
  acc_inv theta a ->
  ep_inv theta (fst (episode_start a)) (fst (episode_start a))
    (snd (episode_start a))
  /\ done (snd (episode_start a)) = false
  /\ ep_rews (snd (episode_start a)) = []
  /\ batch_obs (fst (episode_start a)) = batch_obs a
  /\ batch_rews (fst (episode_start a)) = batch_rews a
  /\ batch_lens (fst (episode_start a)) = batch_lens a
  /\ t (fst (episode_start a)) = t a.
Proof.
  intros [Hs Hw Ht Hr Hl Hlast]. unfold episode_start.
  destruct (env_reset (w_env (wld a))) as [o env']. simpl.
  repeat split; simpl; try assumption; try lia; try discriminate.
Qed.

Lemma acc_inv_body theta fuel a a' :
  (t a < timesteps_per_batch hp)%Z -> acc_inv theta a ->
  rollout_body fuel a = Some a' ->
  acc_inv theta a' /\ (t a < t a')%Z.
Proof.
  intros Hlt Hinv. unfold rollout_body.
  destruct (ep_inv_start Hinv) as (Hep & Hd0 & Hr0 & Eo & Er & El & Et).
  destruct Hinv as [Hs Hw Ht Hr Hl Hlast].
  destruct (episode_start a) as [a0 e0]. simpl in *.
  destruct (episode_loop fuel a0 e0) as [[a1 e1]|] eqn:Hrun; [|discriminate].
  intro E. injection E as <-.
  destruct (@episode_loop_inv (ep_inv theta a0) (@ep_inv_body theta a0)
              fuel a0 e0 a1 e1 Hep Hrun)
    as [[Hs1 Hw1 Hr1 Hl1 Ht1 Hept1 Ho1 Hd1] Hdone].
  specialize (Hd1 Hdone).
  rewrite Eo in Ho1. rewrite Er in Hr1. rewrite El in Hl1. rewrite Et in Ht1.
  split; [split|]; simpl; try assumption.
  - lia.
  - rewrite Hr1, concat_app, length_app. simpl. rewrite app_nil_r. lia.
  - rewrite Hl1, Hr1, Hl, map_app. simpl. now rewrite Hept1.
  - right. exists (batch_rews a1), (ep_rews e1).
    split; [reflexivity|]. split; lia.
  - lia.
Qed.

Lemma acc_inv_init (w : world) : acc_inv (w_actor w) (acc_init w).
Proof. split; simpl; try reflexivity; [constructor|now left]. Qed.

Lemma rollout_loop_acc_inv fuel w a :
  rollout_loop fuel (acc_init w) = Some a ->
  acc_inv (w_actor w) a /\ (timesteps_per_batch hp <= t a)%Z.
Proof.
  intro Hrun.
  apply (@rollout_loop_inv (acc_inv (w_actor w))) with (fuel := fuel)
    (a := acc_init w); [|apply acc_inv_init|exact Hrun].
  intros f a0 a1 Hlt Hinv Hb.
  exact (proj1 (@acc_inv_body (w_actor w) f a0 a1 Hlt Hinv Hb)).
Qed.

Lemma lens_sum (eps : list (list T)) :
  fold_right Z.add 0%Z (map (fun ep => (Z.of_nat (length ep) + 1)%Z) eps)
  = (Z.of_nat (length (concat eps)) + Z.of_nat (length eps))%Z.
Proof.
  induction eps as [|ep eps IH]; [reflexivity|].
  simpl map. simpl fold_right. rewrite IH. simpl concat.
  rewrite length_app. simpl length. lia.
Qed.

(** [np.sum(batch_lens)]; the wrap-around of numpy's 64-bit integers is
    out of reach of any batch and is left out. *)
Definition np_sum (l : list Z) : Z := fold_right Z.add 0%Z l.

Lemma rollout_lens_sum fuel w b w' :
  rollout fuel w = Some (b, w') ->
  np_sum (b_lens b)
  = (Z.of_nat (length (b_obs b)) + Z.of_nat (length (b_lens b)))%Z.
Proof.
  unfold rollout.
  destruct (rollout_loop fuel (acc_init w)) as [a|] eqn:Hrun; [|discriminate].
  intro E. injection E as <- _.
  destruct (rollout_loop_acc_inv _ _ Hrun) as [[_ _ _ Hr Hl _] _].
  simpl. unfold np_sum. rewrite Hl, lens_sum, length_map, Hr. reflexivity.
Qed.

Lemma rollout_length_ge fuel w b w' :
  rollout fuel w = Some (b, w') ->
  (timesteps_per_batch hp <= Z.of_nat (length (b_obs b)))%Z.
Proof.
  unfold rollout.
  destruct (rollout_loop fuel (acc_init w)) as [a|] eqn:Hrun; [|discriminate].
  intro E. injection E as <- _.
  destruct (rollout_loop_acc_inv _ _ Hrun) as [[_ _ Ht _ _ _] Hge].
  simpl. lia.
Qed.

(** *** Termination of [rollout] *)

(** The environment contract: from any state of the accumulators and of
    the episode, [while(not done)] ends. *)
Definition episodes_terminate : Prop :=
  forall (a : acc) (e : episode), exists fuel, episode_loop fuel a e <> None.

Lemma rollout_loop_terminates :
  episodes_terminate ->
  forall (n : nat) theta (a : acc),
    acc_inv theta a ->
    Z.to_nat (timesteps_per_batch hp - t a) <= n ->
    exists fuel a', rollout_loop fuel a = Some a'.
Proof.
  intros Hterm. induction n as [|n IH]; intros theta a Hinv Hn.
  - exists 1, a. simpl.
    destruct (Z.ltb_spec (t a) (timesteps_per_batch hp)); [lia|reflexivity].
  - destruct (Z.ltb_spec (t a) (timesteps_per_batch hp)) as [Hlt|Hge].
    + destruct (Hterm (fst (episode_start a)) (snd (episode_start a)))
        as [f1 Hf1].
      assert (Hbody : exists a1, rollout_body f1 a = Some a1).
      { unfold rollout_body. destruct (episode_start a) as [a0 e0]. simpl in Hf1.
        destruct (episode_loop f1 a0 e0) as [[a1 e1]|]; [|congruence].
        now exists (episode_end a1 e1). }
      destruct Hbody as [a1 Hbody].
      destruct (@acc_inv_body theta f1 a a1 Hlt Hinv Hbody) as [Hinv1 Ht1].
      destruct (IH theta a1 Hinv1) as (f2 & a2 & Hf2); [lia|].
      exists (S (Nat.max f1 f2)), a2. simpl.
      destruct (Z.ltb_spec (t a) (timesteps_per_batch hp)); [|lia].
      rewrite (@rollout_body_mono f1 (Nat.max f1 f2) a a1 (Nat.le_max_l _ _) Hbody).
      exact (@rollout_loop_mono f2 (Nat.max f1 f2) a1 a2 (Nat.le_max_r _ _) Hf2).
    + exists 1, a. simpl.
      destruct (Z.ltb_spec (t a) (timesteps_per_batch hp)); [lia|reflexivity].
Qed.

Lemma rollout_terminates (w : world) :
  episodes_terminate -> exists fuel b w', rollout fuel w = Some (b, w').
Proof.
  intro Hterm.
  destruct (@rollout_loop_terminates Hterm
              (Z.to_nat (timesteps_per_batch hp - 0)) (w_actor w) (acc_init w)
              (acc_inv_init w) (Nat.le_refl _)) as (fuel & a & Hrun).
  exists fuel, (batch_of a), (wld a). unfold rollout. now rewrite Hrun.
Qed.

(** An environment whose every step reports [done]: episodes of one
    step. *)
Lemma always_done_terminates :
  (forall k (env : Env), snd (fst (env_step k env)) = true) ->
  episodes_terminate.
Proof.
  intros Hdone a e. exists 2. cbn [episode_loop].
  destruct (done e); [discriminate|].
  destruct (episode_body_eq a e)
    as (action & lp & w1 & o' & rew & d' & env' & _ & Hstep & ->).
  specialize (Hdone (key_of_move (act_argmax action)) (w_env w1)).
  rewrite Hstep in Hdone. simpl in Hdone. subst d'. discriminate.
Qed.

(** *** Whole episodes

    [steps o w rs w']: from observation [o] in world [w], calling
    [get_action] and [env.step] until the first step that reports [done]
    yields the rewards [rs] and leaves the world [w']; every step before the
    last reported [done = False], the last one [done = True]. *)
Inductive steps : Obs -> world -> list T -> world -> Prop :=
| steps_last o w action log_prob w1 o' rew env' :
    get_action o w = ((action, log_prob), w1) ->
    env_step (key_of_move (act_argmax action)) (w_env w1)
    = ((o', rew, true), env') ->
    steps o w [rew] (set_env env' w1)
| steps_more o w action log_prob w1 o' rew env' rs w' :
    get_action o w = ((action, log_prob), w1) ->
    env_step (key_of_move (act_argmax action)) (w_env w1)
    = ((o', rew, false), env') ->
    steps o' (set_env env' w1) rs w' ->
    steps o w (rew :: rs) w'.

(** [episodes w eps w']: from world [w], one episode after the other, each
    started by [env.reset], run by [steps] to its first [done] and followed
    by the [plot] of its score, yields the reward lists [eps]. *)
Inductive episodes (w : world) : list (list T) -> world -> Prop :=
| episodes_nil : episodes w [] w
| episodes_snoc eps w1 o env' rs w2 :
    episodes w eps w1 ->
    env_reset (w_env w1) = (o, env') ->
    steps o (set_env env' w1) rs w2 ->
    episodes w (eps ++ [rs]) (plot (env_get_score (w_env w2)) w2).

(** Invariant of [while(not done)] for an episode started at observation
    [o0] in world [w0]: the rewards so far begin every whole run. *)
Definition ep_run (o0 : Obs) (w0 : world) (a : acc) (e : episode) : Prop :=
  if done e then steps o0 w0 (ep_rews e) (wld a)
  else forall rs w',
      steps (obs e) (wld a) rs w' -> steps o0 w0 (ep_rews e ++ rs) w'.

Lemma ep_run_body o0 w0 a e :
  done e = false -> ep_run o0 w0 a e ->
  ep_run o0 w0 (fst (episode_body a e)) (snd (episode_body a e)).
Proof.
  intros Hd Hrun. unfold ep_run in Hrun. rewrite Hd in Hrun.
  destruct (episode_body_eq a e)
    as (action & lp & w1 & o' & rew & d' & env' & Hget & Hstep & ->).
  unfold ep_run. cbn [fst snd done ep_rews obs wld].
  destruct d'.
  - apply Hrun. exact (steps_last _ _ Hget Hstep).
  - intros rs w' Hrest. rewrite <- app_assoc. apply Hrun.
    exact (steps_more _ _ Hget Hstep Hrest).
Qed.

Lemma rollout_body_episodes theta w fuel a a' :
  acc_inv theta a ->
  episodes w (batch_rews a) (wld a) ->
  rollout_body fuel a = Some a' ->
  episodes w (batch_rews a') (wld a').
Proof.
  intros Hinv Heps. unfold rollout_body.
  destruct (ep_inv_start Hinv) as (Hep & Hd0 & Hr0 & _ & Er & _ & _).
  assert (Hstart : exists o env',
             env_reset (w_env (wld a)) = (o, env')
             /\ obs (snd (episode_start a)) = o
             /\ wld (fst (episode_start a)) = set_env env' (wld a)).
  { unfold episode_start. destruct (env_reset (w_env (wld a))) as [o env'].
    now exists o, env'. }
  destruct Hstart as (o & env' & Hreset & Ho & Hw).
  destruct (episode_start a) as [a0 e0]. cbn [fst snd] in *.
  assert (Hrun0 : ep_run o (set_env env' (wld a)) a0 e0).
  { unfold ep_run. rewrite Hd0, Hr0, Ho, Hw. intros rs w' H. exact H. }
  destruct (episode_loop fuel a0 e0) as [[a1 e1]|] eqn:Hrun; [|discriminate].
  intro E. injection E as <-.
  destruct (@episode_loop_inv (ep_inv theta a0) (@ep_inv_body theta a0)
              fuel a0 e0 a1 e1 Hep Hrun) as [[_ _ Hr1 _ _ _ _ _] Hdone].
  destruct (@episode_loop_inv (ep_run o (set_env env' (wld a)))
              (@ep_run_body o (set_env env' (wld a)))
              fuel a0 e0 a1 e1 Hrun0 Hrun) as [Hsteps _].
  unfold ep_run in Hsteps. rewrite Hdone in Hsteps.
  cbn [episode_end batch_rews wld]. rewrite Hr1, Er.
  exact (episodes_snoc Heps Hreset Hsteps).
Qed.

Lemma rollout_loop_episodes fuel w a :
  rollout_loop fuel (acc_init w) = Some a ->
  episodes w (batch_rews a) (wld a).
Proof.
  intro Hrun.
  apply (@rollout_loop_inv
           (fun a => acc_inv (w_actor w) a
                     /\ episodes w (batch_rews a) (wld a)))
    with (fuel := fuel) (a := acc_init w); [| |exact Hrun].
  - intros f a0 a1 Hlt [Hinv Heps] Hb. split.
    + exact (proj1 (@acc_inv_body (w_actor w) f a0 a1 Hlt Hinv Hb)).
    + exact (@rollout_body_episodes (w_actor w) w f a0 a1 Hinv Heps Hb).
  - split; [apply acc_inv_init|apply episodes_nil].
Qed.

(** A whole run gives [while(not done)] enough fuel. *)
Lemma steps_episode_loop o w0 rs w' :
  steps o w0 rs w' ->
  forall a e,
    wld a = w0 -> obs e = o -> done e = false ->
    exists fuel r, episode_loop fuel a e = Some r.
Proof.
  induction 1 as [o w0 action lp w1 o' rew env' Hget Hstep
                 |o w0 action lp w1 o' rew env' rs w' Hget Hstep _ IH];
    intros a e Hw Ho Hd.
  - exists 2. cbn [episode_loop]. rewrite Hd.
    destruct (episode_body_eq a e)
      as (action2 & lp2 & w2 & o2 & rew2 & d2 & env2 & Hget2 & Hstep2 & ->).
    rewrite Ho, Hw, Hget in Hget2. injection Hget2 as <- <- <-.
    rewrite Hstep in Hstep2. injection Hstep2 as <- <- <- <-.
    cbn [done]. eexists. reflexivity.
  - destruct (episode_body_eq a e)
      as (action2 & lp2 & w2 & o2 & rew2 & d2 & env2 & Hget2 & Hstep2 & Hbody).
    rewrite Ho, Hw, Hget in Hget2. injection Hget2 as <- <- <-.
    rewrite Hstep in Hstep2. injection Hstep2 as <- <- <- <-.
    destruct (IH (fst (episode_body a e)) (snd (episode_body a e)))
      as (fuel & r & Hrun); try (rewrite Hbody; reflexivity).
    exists (S fuel), r. cbn [episode_loop]. rewrite Hd.
    destruct (episode_body a e) as [a1 e1]. exact Hrun.
Qed.

(** The environment contract that [rollout] needs in world [w]: after any
    number of whole episodes run from [w], the episode that [env.reset]
    starts reaches a step that reports [done]. *)
Definition episodes_terminate_from (w : world) : Prop :=
  forall eps w1 o env',
    episodes w eps w1 ->
    env_reset (w_env w1) = (o, env') ->
    exists rs w2, steps o (set_env env' w1) rs w2.

(** The same whatever the world: every episode started by [env.reset]
    ends. *)
Definition reset_episodes_terminate : Prop :=
  forall (w : world) o env',
    env_reset (w_env w) = (o, env') ->
    exists rs w', steps o (set_env env' w) rs w'.

Lemma reset_episodes_terminate_from (w : world) :
  reset_episodes_terminate -> episodes_terminate_from w.
Proof. intros Hall eps w1 o env' _ Hreset. exact (Hall w1 o env' Hreset). Qed.

Lemma rollout_loop_terminates_from (w : world) :
  episodes_terminate_from w ->
  forall (n : nat) (a : acc),
    acc_inv (w_actor w) a ->
    episodes w (batch_rews a) (wld a) ->
    Z.to_nat (timesteps_per_batch hp - t a) <= n ->
    exists fuel a', rollout_loop fuel a = Some a'.
Proof.
  intros Hterm. induction n as [|n IH]; intros a Hinv Heps Hn.
  - exists 1, a. simpl.
    destruct (Z.ltb_spec (t a) (timesteps_per_batch hp)); [lia|reflexivity].
  - destruct (Z.ltb_spec (t a) (timesteps_per_batch hp)) as [Hlt|Hge].
    + assert (Hbody : exists f1 a1, rollout_body f1 a = Some a1).
      { destruct (ep_inv_start Hinv) as (_ & Hd0 & _).
        assert (Hstart : exists o env',
                   env_reset (w_env (wld a)) = (o, env')
                   /\ obs (snd (episode_start a)) = o
                   /\ wld (fst (episode_start a)) = set_env env' (wld a)).
        { unfold episode_start.
          destruct (env_reset (w_env (wld a))) as [o env'].
          now exists o, env'. }
        destruct Hstart as (o & env' & Hreset & Ho & Hw).
        destruct (Hterm _ _ _ _ Heps Hreset) as (rs & w2 & Hsteps).
        destruct (steps_episode_loop Hsteps _ _ Hw Ho Hd0)
          as (f1 & [a1 e1] & Hrun).
        exists f1, (episode_end a1 e1). unfold rollout_body.
        destruct (episode_start a) as [a0 e0]. cbn [fst snd] in Hrun.
        now rewrite Hrun. }
      destruct Hbody as (f1 & a1 & Hbody).
      destruct (@acc_inv_body (w_actor w) f1 a a1 Hlt Hinv Hbody)
        as [Hinv1 Ht1].
      pose proof (@rollout_body_episodes (w_actor w) w f1 a a1 Hinv Heps Hbody)
        as Heps1.
      destruct (IH a1 Hinv1 Heps1) as (f2 & a2 & Hf2); [lia|].
      exists (S (Nat.max f1 f2)), a2. simpl.
      destruct (Z.ltb_spec (t a) (timesteps_per_batch hp)); [|lia].
      rewrite (@rollout_body_mono f1 (Nat.max f1 f2) a a1
                 (Nat.le_max_l _ _) Hbody).
      exact (@rollout_loop_mono f2 (Nat.max f1 f2) a1 a2
               (Nat.le_max_r _ _) Hf2).
    + exists 1, a. simpl.
      destruct (Z.ltb_spec (t a) (timesteps_per_batch hp)); [lia|reflexivity].
Qed.

Lemma rollout_terminates_from (w : world) :
  episodes_terminate_from w -> exists fuel b w', rollout fuel w = Some (b, w').
Proof.
  intro Hterm.
  destruct (@rollout_loop_terminates_from w Hterm
              (Z.to_nat (timesteps_per_batch hp - 0)) (acc_init w)
              (acc_inv_init w) (episodes_nil w) (Nat.le_refl _))
    as (fuel & a & Hrun).
  exists fuel, (batch_of a), (wld a). unfold rollout. now rewrite Hrun.
Qed.

(** C4.  Every batch that [rollout] returns holds at least
    [timesteps_per_batch] timesteps, one observation per step of its
    episodes; its episodes are whole: each was started by [env.reset] and
    run until the first step that reported [done], none was cut short; for
    a positive target the last episode was started below the target, so the
    excess over the target is less than that episode's length; and
    [rollout] does return when every episode that [env.reset] starts, after
    any number of whole episodes, reaches a step that reports [done]. *)
Theorem rollout_reaches_target (w : world) :
  (forall fuel b w',
      rollout fuel w = Some (b, w') ->
      (timesteps_per_batch hp <= Z.of_nat (length (b_obs b)))%Z
      /\ exists a,
           rollout_loop fuel (acc_init w) = Some a /\ b = batch_of a
           /\ episodes w (batch_rews a) w'
           /\ length (b_obs b) = length (concat (batch_rews a))
           /\ ((0 < timesteps_per_batch hp)%Z ->
               exists eps last,
                 batch_rews a = eps ++ [last]
                 /\ 1 <= length last
                 /\ length (b_obs b) = length (concat eps) + length last
                 /\ (Z.of_nat (length (concat eps)) < timesteps_per_batch hp)%Z
                 /\ (Z.of_nat (length (b_obs b)) - timesteps_per_batch hp
                     < Z.of_nat (length last))%Z))
  /\ (episodes_terminate_from w ->
      exists fuel b w', rollout fuel w = Some (b, w')).
Proof.
  split; [|apply rollout_terminates_from].
  intros fuel b w'. unfold rollout.
  destruct (rollout_loop fuel (acc_init w)) as [a|] eqn:Hrun; [|discriminate].
  intro E. injection E as <- <-.
  destruct (rollout_loop_acc_inv _ _ Hrun) as [[_ _ Ht Hr _ Hlast] Hge].
  pose proof (rollout_loop_episodes _ _ Hrun) as Heps.
  simpl. split; [lia|].
  exists a. split; [reflexivity|]. split; [reflexivity|].
  split; [exact Heps|]. split; [now rewrite Hr|].
  intro Hpos. destruct Hlast as [[_ Ht0]|(eps & last & Hrews & Hl1 & Hlt)]; [lia|].
  exists eps, last. rewrite Hrews, concat_app, length_app in Hr.
  simpl in Hr. rewrite app_nil_r in Hr.
  split; [exact Hrews|]. split; [exact Hl1|]. split; [lia|]. split; lia.
Qed.

(** C6.  In every batch that [rollout] returns the actions and the
    log-probabilities are as many as the observations, and at every index
    the action and the log-probability are the pair that one call of
    [get_action] returned for the observation at that index, made with the
    actor that [rollout] started with: the log-probability is that of this
    action under the distribution of this observation. *)
Theorem rollout_aligned fuel (w : world) b w' :
  rollout fuel w = Some (b, w') ->
  length (b_acts b) = length (b_obs b)
  /\ length (b_log_probs b) = length (b_obs b)
  /\ forall i o,
       nth_error (b_obs b) i = Some o ->
       exists a lp w1 w2,
         nth_error (b_acts b) i = Some a
         /\ nth_error (b_log_probs b) i = Some lp
         /\ w_actor w1 = w_actor w
         /\ get_action o w1 = ((a, lp), w2)
         /\ lp = dist_log_prob (actor_forward (w_actor w) o) a.
Proof.
  unfold rollout.
  destruct (rollout_loop fuel (acc_init w)) as [a|] eqn:Hrun; [|discriminate].
  intro E. injection E as <- _.
  destruct (rollout_loop_acc_inv _ _ Hrun) as [[Hs _ _ _ _ _] _].
  destruct (sampled_length Hs) as [Ha Hl]. simpl.
  split; [exact Ha|]. split; [exact Hl|].
  intros i o Hi.
  destruct (sampled_nth Hs _ Hi) as (act & lp & w1 & w2 & Ea & El & Ew & Eg).
  exists act, lp, w1, w2. repeat split; try assumption.
  unfold get_action in Eg. rewrite Ew in Eg.
  destruct (dist_sample (actor_forward (w_actor w) o) (w_rng w1)) as [x g].
  now injection Eg as -> <- _.
Qed.

(** *** More on [rollout]: the stored log-probabilities *)

Lemma sampled_log_probs theta os acts lps :
  sampled theta os acts lps ->
  lps = map2 dist_log_prob (map (actor_forward theta) os) acts.
Proof.
  induction 1 as [|os acts lps o a lp w w' Hs IH Hw Hget]; [reflexivity|].
  destruct (sampled_length Hs) as [Ha _].
  rewrite map_app. cbn [map].
  rewrite TensorFacts.map2_snoc by (rewrite length_map; congruence).
  rewrite <- IH. f_equal. f_equal.
  unfold get_action in Hget. rewrite Hw in Hget.
  destruct (dist_sample (actor_forward theta o) (w_rng w)) as [x g].
  now injection Hget as -> <- _.
Qed.

(** *** More on [rollout]: what an episode leaves alone *)

(** During [while(not done)] the networks and the plotter are not
    touched. *)
Record ep_frame (a0 a : acc) (e : episode) : Prop :=
  { ef_actor : w_actor (wld a) = w_actor (wld a0);
    ef_critic : w_critic (wld a) = w_critic (wld a0);
    ef_plots : w_plots (wld a) = w_plots (wld a0) }.

Lemma ep_frame_body a0 a e :
  done e = false -> ep_frame a0 a e ->
  ep_frame a0 (fst (episode_body a e)) (snd (episode_body a e)).
Proof.
  intros _ [Ha Hc Hp].
  destruct (episode_body_eq a e)
    as (action & lp & w1 & o' & rew & d' & env' & Hget & _ & ->).
  unfold get_action in Hget.
  destruct (dist_sample (actor_forward (w_actor (wld a)) (obs e))
              (w_rng (wld a))) as [x g].
  injection Hget as _ _ <-. now split.
Qed.

(** One pass of the outer loop: one more episode, of one step or more, one
    more length, one more score handed to [plot]. *)
Lemma rollout_body_step theta fuel a a' :
  acc_inv theta a -> rollout_body fuel a = Some a' ->
  exists ep score,
    batch_rews a' = batch_rews a ++ [ep]
    /\ 1 <= length ep
    /\ w_actor (wld a') = w_actor (wld a)
    /\ w_critic (wld a') = w_critic (wld a)
    /\ w_plots (wld a') = w_plots (wld a) ++ [score].
Proof.
  intros Hinv. unfold rollout_body.
  destruct (ep_inv_start Hinv) as (Hep & Hd0 & Hr0 & Eo & Er & El & Et).
  assert (Hfr : ep_frame (fst (episode_start a)) (fst (episode_start a))
                  (snd (episode_start a))) by now split.
  assert (Hw0 : w_actor (wld (fst (episode_start a))) = w_actor (wld a)
                /\ w_critic (wld (fst (episode_start a))) = w_critic (wld a)
                /\ w_plots (wld (fst (episode_start a))) = w_plots (wld a)).
  { unfold episode_start. destruct (env_reset (w_env (wld a))). now repeat split. }
  destruct (episode_start a) as [a0 e0]. cbn [fst snd] in *.
  destruct (episode_loop fuel a0 e0) as [[a1 e1]|] eqn:Hrun; [|discriminate].
  intro E. injection E as <-.
  destruct (@episode_loop_inv (ep_inv theta a0) (@ep_inv_body theta a0)
              fuel a0 e0 a1 e1 Hep Hrun)
    as [[_ _ Hr1 _ _ _ _ Hd1] Hdone].
  destruct (@episode_loop_inv (ep_frame a0) (@ep_frame_body a0)
              fuel a0 e0 a1 e1 Hfr Hrun) as [[Fa Fc Fp] _].
  destruct Hw0 as (Wa & Wc & Wp).
  exists (ep_rews e1), (env_get_score (w_env (wld a1))).
  cbn [episode_end batch_rews wld plot w_actor w_critic w_plots].
  split; [congruence|]. split; [exact (Hd1 Hdone)|].
  split; [congruence|]. split; congruence.
Qed.

(** Invariant of the outer loop, beside [acc_inv]. *)
Record acc_frame (w : world) (a : acc) : Prop :=
  { af_inv : acc_inv (w_actor w) a;
    af_steps : Forall (fun ep => 1 <= length ep) (batch_rews a);
    af_actor : w_actor (wld a) = w_actor w;
    af_critic : w_critic (wld a) = w_critic w;
    af_plots :
      exists scores,
        w_plots (wld a) = w_plots w ++ scores
        /\ length scores = length (batch_rews a) }.

Lemma rollout_loop_acc_frame fuel w a :
  rollout_loop fuel (acc_init w) = Some a -> acc_frame w a.
Proof.
  intro Hrun.
  apply (@rollout_loop_inv (acc_frame w)) with (fuel := fuel)
    (a := acc_init w); [| |exact Hrun].
  - intros f a0 a1 Hlt [Hinv Hsteps Ha Hc (scores & Hp & Hn)] Hb.
    destruct (@rollout_body_step (w_actor w) f a0 a1 Hinv Hb)
      as (ep & score & Er & Hep & Ea & Ec & Ep).
    split.
    + exact (proj1 (@acc_inv_body (w_actor w) f a0 a1 Hlt Hinv Hb)).
    + rewrite Er. apply Forall_app. split; [exact Hsteps|now constructor].
    + congruence.
    + congruence.
    + exists (scores ++ [score]). rewrite Ep, Hp, Er, app_assoc, !length_app.
      simpl. split; [reflexivity|lia].
  - split; try reflexivity; [apply acc_inv_init|constructor|].
    exists []. simpl. now rewrite app_nil_r.
Qed.

Lemma rollout_lengths fuel (w : world) b w' :
  rollout fuel w = Some (b, w') ->
  length (b_acts b) = length (b_obs b)
  /\ length (b_log_probs b) = length (b_obs b)
  /\ length (b_rtgs b) = length (b_obs b).
Proof.
  unfold rollout.
  destruct (rollout_loop fuel (acc_init w)) as [a|] eqn:Hrun; [|discriminate].
  intro E. injection E as <- _.
  destruct (rollout_loop_acc_inv _ _ Hrun) as [[Hs _ _ Hr _ _] _].
  destruct (sampled_length Hs) as [Ha Hl].
  cbn [batch_of b_rtgs b_obs b_acts b_log_probs].
  now rewrite compute_rtgs_length.
Qed.

Lemma rollout_networks_plots fuel (w : world) b w' :
  rollout fuel w = Some (b, w') ->
  w_actor w' = w_actor w
  /\ w_critic w' = w_critic w
  /\ exists scores,
       w_plots w' = w_plots w ++ scores
       /\ length scores = length (b_lens b).
Proof.
  unfold rollout.
  destruct (rollout_loop fuel (acc_init w)) as [a|] eqn:Hrun; [|discriminate].
  intro E. injection E as <- <-.
  destruct (rollout_loop_acc_frame _ _ Hrun)
    as [[_ _ _ _ Hl _] _ Ha Hc (scores & Hp & Hn)].
  split; [exact Ha|]. split; [exact Hc|].
  exists scores. split; [exact Hp|].
  cbn [batch_of b_lens]. now rewrite Hl, length_map.
Qed.

Lemma rollout_stored_log_probs fuel (w : world) b w' :
  rollout fuel w = Some (b, w') ->
  b_log_probs b
  = map2 dist_log_prob (map (actor_forward (w_actor w)) (b_obs b)) (b_acts b).
Proof.
  unfold rollout.
  destruct (rollout_loop fuel (acc_init w)) as [a|] eqn:Hrun; [|discriminate].
  intro E. injection E as <- _.
  destruct (rollout_loop_acc_inv _ _ Hrun) as [[Hs _ _ _ _ _] _].
  exact (sampled_log_probs Hs).
Qed.

(** X5.  The shapes of a batch: one reward-to-go per observation, one
    length per episode, every recorded length two or more (one more than
    the one step or more that every episode takes), and no more episodes
    than observations. *)
Theorem rollout_shapes fuel (w : world) b w' :
  rollout fuel w = Some (b, w') ->
  length (b_rtgs b) = length (b_obs b)
  /\ Forall (fun l => (2 <= l)%Z) (b_lens b)
  /\ length (b_lens b) <= length (b_obs b).
Proof.
  unfold rollout.
  destruct (rollout_loop fuel (acc_init w)) as [a|] eqn:Hrun; [|discriminate].
  intro E. injection E as <- _.
  destruct (rollout_loop_acc_frame _ _ Hrun) as [[_ _ _ Hr Hl _] Hsteps _ _ _].
  cbn [batch_of b_rtgs b_obs b_lens].
  split; [now rewrite compute_rtgs_length|].
  rewrite Hl, <- Hr. clear Hl Hr Hrun.
  induction Hsteps as [|ep eps Hep _ [IH1 IH2]]; [split; [constructor|simpl; lia]|].
  split.
  - simpl. constructor; [lia|exact IH1].
  - simpl in *. rewrite length_app. lia.
Qed.

(** X6.  [rollout] leaves the actor and the critic as they are and hands
    one score to [plot] per episode of the batch, after those plotted
    before. *)
Theorem rollout_frame fuel (w : world) b w' :
  rollout fuel w = Some (b, w') ->
  w_actor w' = w_actor w
  /\ w_critic w' = w_critic w
  /\ exists scores,
       w_plots w' = w_plots w ++ scores
       /\ length scores = length (b_lens b).
Proof. apply rollout_networks_plots. Qed.


End Rollout.

(** *** [learn]

    The critic network applied to one observation, and an optimizer step:
    [zero_grad(); loss.backward(); step()] moves the parameters along the
    gradient of the loss, which is given here as a function of the
    parameters (the optimizer's own state is part of [Params]). *)
Class Optimisation (Params Obs : Type) : Type :=
  { critic_forward : Params -> Obs -> R;
    adam_step : (Params -> R) -> Params -> Params }.

Section Learn.

Context {Env Rng Params Obs Act Mean Score : Type}.
Context `{Col : Collaborators Env Rng Params Obs Act Mean R R Score}.
Context `{Opt : Optimisation Params Obs}.
Variable hp : hyperparameters R.

Local Abbreviation World := (@world Env Rng Params Score).
Local Abbreviation Batch := (@batch Obs Act R R).

(** [evaluate]: the critic's values (squeezed to one dimension) and the
    log-probabilities of the batch actions under the current actor; both
    networks and the distribution work row by row. *)
Definition evaluate (batch_obs : list Obs) (batch_acts : list Act)
  (w : World) : list R * list R :=
  let V := map (critic_forward (w_critic w)) batch_obs in
  let mean := map (actor_forward (w_actor w)) batch_obs in
  let log_probs := map2 dist_log_prob mean batch_acts in
  (V, log_probs).

(** What one inner epoch computed (ghost data: [learn] returns nothing). *)
Record epoch_log : Type :=
  { el_world : World;              (* the world the epoch started in *)
    el_rtgs : list R;              (* the target handed to MSELoss *)
    el_A_k : list R;               (* the advantages it multiplied by *)
    el_actor_loss : R;
    el_critic_loss : R }.

(** Body of [for _ in range(self.n_updates_per_iteration)]. *)
Definition update_epoch (b : Batch) (A_k : list R) (w : World)
  : World * epoch_log :=
  let '(V, curr_log_probs) := evaluate (b_obs b) (b_acts b) w in
  let rs := texp (tsub curr_log_probs (b_log_probs b)) in
  let s1 := tmul rs A_k in
  let s2 := tmul (map (clamp (1 - clip hp) (1 + clip hp)) rs) A_k in
  let a_loss := mean (tneg (tmin s1 s2)) in
  let c_loss := mse_loss V (b_rtgs b) in
  let actor' :=
    adam_step
      (fun theta =>
         actor_loss (clip hp)
           (snd (evaluate (b_obs b) (b_acts b) (set_actor theta w)))
           (b_log_probs b) A_k)
      (w_actor w) in
  let w1 := set_actor actor' w in
  let critic' :=
    adam_step
      (fun phi =>
         mse_loss (fst (evaluate (b_obs b) (b_acts b) (set_critic phi w1)))
           (b_rtgs b))
      (w_critic w1) in
  (set_critic critic' w1,
   {| el_world := w; el_rtgs := b_rtgs b; el_A_k := A_k;
      el_actor_loss := a_loss; el_critic_loss := c_loss |}).

Fixpoint update_epochs (n : nat) (b : Batch) (A_k : list R) (w : World)
  : World * list epoch_log :=
  match n with
  | O => (w, [])
  | S n' =>
      let '(w1, l) := update_epoch b A_k w in
      let '(w2, ls) := update_epochs n' b A_k w1 in
      (w2, l :: ls)
  end.

(** What one pass of the [while] of [learn] did (ghost data). *)
Record cycle_log : Type :=
  { cl_batch : Batch;              (* what rollout returned *)
    cl_t_so_far : Z;               (* the counter after the pass *)
    cl_A_k : list R;
    cl_epochs : list epoch_log }.

(** From [V, _ = self.evaluate(...)] to the end of the inner loop. *)
Definition update (b : Batch) (w : World) : World * (list R * list epoch_log) :=
  let '(V, _) := evaluate (b_obs b) (b_acts b) w in
  let A_k := tsub (b_rtgs b) V in
  let A_k := normalize A_k in
  let '(w', epochs) :=
    update_epochs (Z.to_nat (n_updates_per_iteration hp)) b A_k w in
  (w', (A_k, epochs)).

Fixpoint learn_loop (fuel : nat) (total_timesteps t_so_far : Z) (w : World)
  : option (World * list cycle_log) :=
  match fuel with
  | O => None
  | S fuel' =>
      if (t_so_far <? total_timesteps)%Z then
        match rollout hp fuel' w with
        | None => None
        | Some (b, w1) =>
            let t_so_far' := (t_so_far + np_sum (b_lens b))%Z in
            let '(w2, (A_k, epochs)) := update b w1 in
            match learn_loop fuel' total_timesteps t_so_far' w2 with
            | None => None
            | Some (w3, cycles) =>
                Some (w3,
                      {| cl_batch := b; cl_t_so_far := t_so_far';
                         cl_A_k := A_k; cl_epochs := epochs |} :: cycles)
            end
        end
      else Some (w, [])
  end.

Definition learn (fuel : nat) (total_timesteps : Z) (w : World)
  : option (World * list cycle_log) :=
  learn_loop fuel total_timesteps 0 w.

(** *** The inner loop *)

Lemma update_epoch_log (b : Batch) (A_k : list R) (w : World) :
  snd (update_epoch b A_k w)
  = {| el_world := w;
       el_rtgs := b_rtgs b;
       el_A_k := A_k;
       el_actor_loss :=
         actor_loss (clip hp) (snd (evaluate (b_obs b) (b_acts b) w))
           (b_log_probs b) A_k;
       el_critic_loss :=
         mse_loss (fst (evaluate (b_obs b) (b_acts b) w)) (b_rtgs b) |}.
Proof. reflexivity. Qed.

Lemma update_epochs_S (n : nat) (b : Batch) (A_k : list R) (w : World) :
  update_epochs (S n) b A_k w
  = (fst (update_epochs n b A_k (fst (update_epoch b A_k w))),
     snd (update_epoch b A_k w)
     :: snd (update_epochs n b A_k (fst (update_epoch b A_k w)))).
Proof.
  cbn [update_epochs]. destruct (update_epoch b A_k w) as [w1 l].
  cbn [fst snd]. now destruct (update_epochs n b A_k w1).
Qed.

Lemma update_epochs_Forall (P : epoch_log -> Prop) (b : Batch)
  (A_k : list R) :
  (forall w, P (snd (update_epoch b A_k w))) ->
  forall n w, Forall P (snd (update_epochs n b A_k w)).
Proof.
  intros HP. induction n as [|n IH]; intro w.
  - constructor.
  - rewrite update_epochs_S. cbn [snd]. constructor; [apply HP|apply IH].
Qed.

Lemma update_epochs_length (n : nat) (b : Batch) (A_k : list R) (w : World) :
  length (snd (update_epochs n b A_k w)) = n.
Proof.
  revert w. induction n as [|n IH]; intro w; [reflexivity|].
  rewrite update_epochs_S. cbn [snd length]. now rewrite IH.
Qed.

(** The clipped surrogate as the specification writes it: the mean over
    the batch of [-min(r * A, clip(r, 1 - eps, 1 + eps) * A)], where [r] is
    [exp(current log-probability - stored log-probability)] and the current
    log-probabilities are those of the batch actions at the batch
    observations under the actor parameters [theta]. *)
Definition clipped_surrogate (b : Batch) (A_k : list R) (theta : Params) : R :=
  let curr_log_probs :=
    map2 dist_log_prob (map (actor_forward theta) (b_obs b)) (b_acts b) in
  mean
    (map2
       (fun curr_old A =>
          (- Rmin (exp (fst curr_old - snd curr_old) * A)
               (clamp (1 - clip hp) (1 + clip hp)
                  (exp (fst curr_old - snd curr_old)) * A))%R)
       (combine curr_log_probs (b_log_probs b)) A_k).

Lemma update_epoch_surrogate (b : Batch) (A_k : list R) (w : World) :
  el_actor_loss (snd (update_epoch b A_k w))
  = clipped_surrogate b A_k (w_actor (el_world (snd (update_epoch b A_k w)))).
Proof.
  rewrite update_epoch_log. cbn [el_actor_loss el_world].
  unfold clipped_surrogate. simpl. apply actor_loss_samples.
Qed.

(** *** The outer loop *)

Lemma update_eq (b : Batch) (w : World) :
  let A_k := advantages (b_rtgs b) (fst (evaluate (b_obs b) (b_acts b) w)) in
  let n := Z.to_nat (n_updates_per_iteration hp) in
  update b w
  = (fst (update_epochs n b A_k w), (A_k, snd (update_epochs n b A_k w))).
Proof.
  unfold update, advantages. cbn [evaluate fst].
  now destruct (update_epochs _ b _ w).
Qed.

Lemma learn_loop_S (fuel : nat) (total t_so_far : Z) (w : World) :
  learn_loop (S fuel) total t_so_far w
  = if (t_so_far <? total)%Z then
      match rollout hp fuel w with
      | None => None
      | Some (b, w1) =>
          match learn_loop fuel total (t_so_far + np_sum (b_lens b))
                  (fst (update b w1)) with
          | None => None
          | Some (w3, cycles) =>
              Some (w3,
                    {| cl_batch := b;
                       cl_t_so_far := (t_so_far + np_sum (b_lens b))%Z;
                       cl_A_k := fst (snd (update b w1));
                       cl_epochs := snd (snd (update b w1)) |} :: cycles)
          end
      end
    else Some (w, []).
Proof.
  cbn [learn_loop]. destruct (t_so_far <? total)%Z; [|reflexivity].
  destruct (rollout hp fuel w) as [[b w1]|]; [|reflexivity].
  now destruct (update b w1) as [w2 [A_k epochs]].
Qed.

Lemma learn_loop_Forall (P : cycle_log -> Prop) :
  (forall f w b w1 t_so_far,
      rollout hp f w = Some (b, w1) ->
      P {| cl_batch := b; cl_t_so_far := t_so_far;
           cl_A_k := fst (snd (update b w1));
           cl_epochs := snd (snd (update b w1)) |}) ->
  forall fuel total t_so_far w w' cycles,
    learn_loop fuel total t_so_far w = Some (w', cycles) -> Forall P cycles.
Proof.
  intro HP. induction fuel as [|fuel IH]; intros total t0 w w' cycles Hrun.
  - discriminate.
  - rewrite learn_loop_S in Hrun.
    destruct (t0 <? total)%Z.
    + destruct (rollout hp fuel w) as [[b w1]|] eqn:Hroll; [|discriminate].
      destruct (learn_loop fuel total (t0 + np_sum (b_lens b))
                  (fst (update b w1))) as [[w3 cs]|] eqn:Hrest; [|discriminate].
      injection Hrun as _ <-. constructor.
      * now apply HP with (f := fuel) (w := w).
      * now apply (IH _ _ _ _ _ Hrest).
    + injection Hrun as _ <-. constructor.
Qed.

Lemma learn_loop_mono (fuel fuel' : nat) (total t_so_far : Z) (w : World) r :
  fuel <= fuel' ->
  learn_loop fuel total t_so_far w = Some r ->
  learn_loop fuel' total t_so_far w = Some r.
Proof.
  revert fuel' t_so_far w r.
  induction fuel as [|fuel IH]; intros fuel' t0 w r Hle Hrun.
  - discriminate.
  - destruct fuel' as [|fuel']; [lia|].
    rewrite learn_loop_S in *.
    destruct (t0 <? total)%Z; [|exact Hrun].
    destruct (rollout hp fuel w) as [[b w1]|] eqn:Hroll; [|discriminate].
    assert (Hle' : fuel <= fuel') by lia.
    rewrite (@rollout_mono _ _ _ _ _ _ _ _ _ _ _ hp fuel fuel' w (b, w1)
               Hle' Hroll).
    destruct (learn_loop fuel total (t0 + np_sum (b_lens b))
                (fst (update b w1))) as [[w3 cs]|] eqn:Hrest; [|discriminate].
    now rewrite (IH fuel' _ _ _ Hle' Hrest).
Qed.

(** C7.  In every pass of [learn] the rewards-to-go are those that
    [rollout] returned, computed there by [compute_rtgs] from the rewards
    of the batch; the inner loop runs [n_updates_per_iteration] epochs, and
    each of them hands exactly that tensor to the critic loss. *)
Theorem rtgs_fixed_in_cycle fuel total (w w' : World) cycles :
  learn fuel total w = Some (w', cycles) ->
  Forall
    (fun c =>
       (exists f w0 w1 a,
           rollout hp f w0 = Some (cl_batch c, w1)
           /\ rollout_loop hp f (acc_init w0) = Some a
           /\ b_rtgs (cl_batch c) = compute_rtgs (gamma hp) (batch_rews a))
       /\ length (cl_epochs c) = Z.to_nat (n_updates_per_iteration hp)
       /\ Forall
            (fun e =>
               el_rtgs e = b_rtgs (cl_batch c)
               /\ el_critic_loss e
                  = mse_loss
                      (map (critic_forward (w_critic (el_world e)))
                         (b_obs (cl_batch c)))
                      (b_rtgs (cl_batch c)))
            (cl_epochs c))
    cycles.
Proof.
  unfold learn. apply learn_loop_Forall.
  intros f w0 b w1 t0 Hroll. cbn [cl_batch cl_epochs].
  rewrite update_eq. cbn [fst snd]. split; [|split].
  - exists f, w0, w1. pose proof Hroll as Hloop. unfold rollout in Hloop.
    destruct (rollout_loop hp f (acc_init w0)) as [a|]; [|discriminate].
    exists a. injection Hloop as <- _.
    split; [exact Hroll|]. split; reflexivity.
  - apply update_epochs_length.
  - apply update_epochs_Forall. intro w2. now rewrite update_epoch_log.
Qed.

(** C2.  The inner loop runs one epoch per count, and in every one of them
    the actor loss is the mean over the batch of
    [-min(r * A, clip(r, 1 - eps, 1 + eps) * A)], where [r] is
    [exp(current log-probability - stored log-probability)], the current
    log-probabilities being those of the batch actions under the actor at
    the start of the epoch; so it is in every pass of [learn], whose inner
    loop runs [n_updates_per_iteration] epochs on the batch of the pass and
    its advantages. *)
Theorem actor_loss_clipped_surrogate :
  (forall (n : nat) (b : Batch) (A_k : list R) (w : World),
      length (snd (update_epochs n b A_k w)) = n
      /\ Forall
           (fun e =>
              el_actor_loss e
              = clipped_surrogate b A_k (w_actor (el_world e)))
           (snd (update_epochs n b A_k w)))
  /\ forall fuel total (w w' : World) cycles,
       learn fuel total w = Some (w', cycles) ->
       Forall
         (fun c =>
            length (cl_epochs c) = Z.to_nat (n_updates_per_iteration hp)
            /\ Forall
                 (fun e =>
                    el_actor_loss e
                    = clipped_surrogate (cl_batch c) (cl_A_k c)
                        (w_actor (el_world e)))
                 (cl_epochs c))
         cycles.
Proof.
  split.
  - intros n b A_k w. split; [apply update_epochs_length|].
    apply update_epochs_Forall. intro w0. apply update_epoch_surrogate.
  - intros fuel total w w' cycles. unfold learn. apply learn_loop_Forall.
    intros f w0 b w1 t0 _. cbn [cl_batch cl_epochs cl_A_k].
    rewrite update_eq. cbn [fst snd]. split; [apply update_epochs_length|].
    apply update_epochs_Forall. intro w2. apply update_epoch_surrogate.
Qed.

(** *** One cycle is enough when the budget is one batch *)

Lemma learn_single_cycle (w : World) :
  episodes_terminate (T := R) ->
  (0 < timesteps_per_batch hp)%Z ->
  exists fuel w' c,
    learn fuel (timesteps_per_batch hp) w = Some (w', [c])
    /\ length (cl_epochs c) = Z.to_nat (n_updates_per_iteration hp)
    /\ cl_t_so_far c = np_sum (b_lens (cl_batch c))
    /\ exists f w1, rollout hp f w = Some (cl_batch c, w1).
Proof.
  intros Hterm Hpos.
  destruct (rollout_terminates hp w Hterm) as (f & b & w1 & Hroll).
  pose proof (rollout_length_ge _ _ _ Hroll) as Hge.
  pose proof (rollout_lens_sum _ _ _ Hroll) as Hsum.
  exists (S (S f)), (fst (update b w1)).
  eexists. unfold learn. rewrite learn_loop_S.
  destruct (Z.ltb_spec 0 (timesteps_per_batch hp)) as [_|]; [|lia].
  rewrite (@rollout_mono _ _ _ _ _ _ _ _ _ _ _ hp f (S f) w (b, w1)
             (Nat.le_succ_diag_r f) Hroll).
  rewrite learn_loop_S.
  destruct (Z.ltb_spec (0 + np_sum (b_lens b)) (timesteps_per_batch hp));
    [lia|].
  split; [reflexivity|]. cbn [cl_epochs cl_t_so_far cl_batch].
  split; [rewrite update_eq; cbn [snd]; apply update_epochs_length|].
  split; [reflexivity|]. now exists f, w1.
Qed.

(** C8.  With an environment whose every step ends the episode and a
    positive [timesteps_per_batch], [learn] called with a budget of
    [timesteps_per_batch] terminates after one pass of its loop: one call
    of [rollout], one run of the inner loop with its
    [n_updates_per_iteration] epochs, and every run that returns returns
    this. *)
Theorem learn_one_cycle (w : World) :
  (forall k (env : Env), snd (fst (env_step k env)) = true) ->
  (0 < timesteps_per_batch hp)%Z ->
  exists fuel w' c,
    learn fuel (timesteps_per_batch hp) w = Some (w', [c])
    /\ length (cl_epochs c) = Z.to_nat (n_updates_per_iteration hp)
    /\ forall fuel' r,
         learn fuel' (timesteps_per_batch hp) w = Some r -> r = (w', [c]).
Proof.
  intros Hdone Hpos.
  destruct (learn_single_cycle w (always_done_terminates (T := R) Hdone) Hpos)
    as (fuel & w' & c & Hrun & Hlen & _).
  exists fuel, w', c. split; [exact Hrun|]. split; [exact Hlen|].
  intros fuel' r Hrun'. unfold learn in *.
  pose proof (learn_loop_mono _ _ _ (Nat.le_max_l fuel fuel') Hrun) as E1.
  pose proof (learn_loop_mono _ _ _ (Nat.le_max_r fuel fuel') Hrun') as E2.
  congruence.
Qed.

(** *** More on [learn] *)

Lemma evaluate_after_rollout f (w0 w1 : World) (b : Batch) :
  rollout hp f w0 = Some (b, w1) ->
  snd (evaluate (b_obs b) (b_acts b) w1) = b_log_probs b
  /\ length (fst (evaluate (b_obs b) (b_acts b) w1)) = length (b_rtgs b)
  /\ length (b_log_probs b) = length (b_rtgs b)
  /\ (timesteps_per_batch hp <= Z.of_nat (length (b_rtgs b)))%Z.
Proof.
  intro Hroll.
  destruct (rollout_networks_plots _ _ _ Hroll) as (Ha & _ & _).
  destruct (rollout_lengths _ _ _ Hroll) as (_ & Hl & Hr).
  pose proof (rollout_length_ge _ _ _ Hroll) as Hge.
  cbn [evaluate fst snd]. rewrite Ha, length_map.
  rewrite <- (rollout_stored_log_probs _ _ _ Hroll).
  split; [reflexivity|]. split; [congruence|]. split; [congruence|lia].
Qed.

Lemma advantages_length (rtgs V : list R) :
  length V = length rtgs -> length (advantages rtgs V) = length rtgs.
Proof.
  intro E. unfold advantages, normalize. rewrite length_map.
  apply map2_length. congruence.
Qed.

(** X7.  In the first inner epoch of every pass of [learn] the actor is
    still the one that collected the batch: every probability ratio is [1]
    and, the advantages being normalised to mean [0], the actor loss is
    [0] (for a clip of [0] or more and batches of two timesteps or
    more). *)
Theorem first_epoch_on_policy fuel total (w w' : World) cycles :
  (0 <= clip hp)%R ->
  (2 <= timesteps_per_batch hp)%Z ->
  learn fuel total w = Some (w', cycles) ->
  Forall
    (fun c =>
       forall e0 rest,
         cl_epochs c = e0 :: rest ->
         Forall (fun r => r = 1%R)
           (ratios
              (snd (evaluate (b_obs (cl_batch c)) (b_acts (cl_batch c))
                      (el_world e0)))
              (b_log_probs (cl_batch c)))
         /\ el_actor_loss e0 = 0%R)
    cycles.
Proof.
  intros Hclip HT. unfold learn. apply learn_loop_Forall.
  intros f w0 b w1 t0 Hroll. cbn [cl_batch cl_epochs].
  destruct (evaluate_after_rollout _ _ Hroll) as (Hlp & HV & Hl & Hge).
  rewrite update_eq. cbn [fst snd].
  intros e0 rest Hep.
  destruct (Z.to_nat (n_updates_per_iteration hp)) as [|n]; [discriminate|].
  rewrite update_epochs_S, update_epoch_log in Hep.
  assert (He0 : e0 = hd e0 (e0 :: rest)) by reflexivity.
  rewrite <- Hep in He0. cbn [snd hd] in He0. rewrite He0.
  cbn [el_world el_actor_loss].
  rewrite Hlp. split.
  - rewrite TensorFacts.ratios_same. apply Forall_forall.
    intros r Hin. apply in_map_iff in Hin. now destruct Hin as (_ & <- & _).
  - rewrite TensorFacts.actor_loss_same; [|exact Hclip|].
    + unfold advantages. rewrite mean_normalize; [ring|].
      unfold tsub. rewrite map2_length by (symmetry; exact HV). lia.
    + rewrite advantages_length; congruence.
Qed.

(** [cycles_from w cycles]: the passes logged in [cycles] were made one
    after the other starting in world [w].  Each pass collected its batch
    by [rollout] in the world it started in; its advantages are those of
    the batch rewards-to-go against the values of the critic of that
    world, one per observation; the actor loss of every inner epoch is the
    clipped surrogate for these advantages; and the next pass starts in the
    world that the update of this pass left. *)
Fixpoint cycles_from (w : World) (cycles : list cycle_log) : Prop :=
  match cycles with
  | [] => True
  | c :: rest =>
      exists f w1,
        rollout hp f w = Some (cl_batch c, w1)
        /\ (let b := cl_batch c in
            let A_k :=
              advantages (b_rtgs b)
                (map (critic_forward (w_critic w)) (b_obs b)) in
            length A_k = length (b_obs b)
            /\ length (cl_epochs c) = Z.to_nat (n_updates_per_iteration hp)
            /\ Forall
                 (fun e =>
                    el_actor_loss e
                    = clipped_surrogate b A_k (w_actor (el_world e)))
                 (cl_epochs c))
        /\ cycles_from (fst (update (cl_batch c) w1)) rest
  end.

Lemma learn_loop_cycles_from fuel total t_so_far (w w' : World) cycles :
  learn_loop fuel total t_so_far w = Some (w', cycles) ->
  cycles_from w cycles.
Proof.
  revert t_so_far w w' cycles.
  induction fuel as [|fuel IH]; intros t0 w w' cycles Hrun; [discriminate|].
  rewrite learn_loop_S in Hrun.
  destruct (t0 <? total)%Z.
  - destruct (rollout hp fuel w) as [[b w1]|] eqn:Hroll; [|discriminate].
    destruct (learn_loop fuel total (t0 + np_sum (b_lens b))
                (fst (update b w1))) as [[w3 cs]|] eqn:Hrest; [|discriminate].
    injection Hrun as _ <-. cbn [cycles_from cl_batch cl_epochs].
    exists fuel, w1. split; [exact Hroll|].
    destruct (rollout_networks_plots _ _ _ Hroll) as (_ & Hc & _).
    destruct (rollout_lengths _ _ _ Hroll) as (_ & _ & Hr).
    split; [|exact (IH _ _ _ _ Hrest)].
    cbv zeta. rewrite update_eq. cbn [fst snd evaluate]. rewrite Hc.
    split; [|split].
    + rewrite advantages_length; [exact Hr|]. now rewrite length_map.
    + apply update_epochs_length.
    + apply update_epochs_Forall. intro w2. apply update_epoch_surrogate.
  - injection Hrun as _ <-. exact I.
Qed.

(** X8.  In every pass of [learn] the advantages are computed once, from
    the rewards-to-go of the batch and the values of the critic of the
    world in which the pass started ([rollout] leaves the critic alone);
    there is one per observation, and the actor loss of every inner epoch
    of the pass is computed with these same advantages although the critic
    is updated between the epochs; the first pass starts in the world
    [learn] was called in, every other one in the world the previous update
    left. *)
Theorem advantages_fixed_in_cycle fuel total (w w' : World) cycles :
  learn fuel total w = Some (w', cycles) -> cycles_from w cycles.
Proof. apply learn_loop_cycles_from. Qed.

(** The inner loop touches the two networks only. *)
Lemma update_epochs_frame (n : nat) (b : Batch) (A_k : list R) (w : World) :
  let w' := fst (update_epochs n b A_k w) in
  w_env w' = w_env w /\ w_rng w' = w_rng w /\ w_plots w' = w_plots w.
Proof.
  revert w. induction n as [|n IH]; intro w; [now repeat split|].
  rewrite update_epochs_S. cbn [fst].
  destruct (IH (fst (update_epoch b A_k w))) as (He & Hr & Hp).
  cbv zeta. rewrite He, Hr, Hp. now repeat split.
Qed.

Lemma update_frame (b : Batch) (w : World) :
  w_env (fst (update b w)) = w_env w
  /\ w_rng (fst (update b w)) = w_rng w
  /\ w_plots (fst (update b w)) = w_plots w.
Proof. rewrite update_eq. cbn [fst]. apply update_epochs_frame. Qed.

(** [sum(batch_lens)] over the passes, and the number of episodes. *)
Definition total_lens (cycles : list cycle_log) : Z :=
  fold_right (fun c acc => (np_sum (b_lens (cl_batch c)) + acc)%Z) 0%Z cycles.

Definition total_episodes (cycles : list cycle_log) : nat :=
  fold_right (fun c acc => length (b_lens (cl_batch c)) + acc) 0 cycles.

Lemma learn_loop_trace fuel total t_so_far (w w' : World) cycles :
  learn_loop fuel total t_so_far w = Some (w', cycles) ->
  (exists scores,
      w_plots w' = w_plots w ++ scores
      /\ length scores = total_episodes cycles)
  /\ (cycles = [] <-> (total <= t_so_far)%Z)
  /\ (total <= t_so_far + total_lens cycles)%Z
  /\ forall pre c post,
       cycles = pre ++ c :: post ->
       cl_t_so_far c = (t_so_far + total_lens (pre ++ [c]))%Z
       /\ (t_so_far + total_lens pre < total)%Z.
Proof.
  revert t_so_far w w' cycles.
  induction fuel as [|fuel IH]; intros t0 w w' cycles Hrun; [discriminate|].
  rewrite learn_loop_S in Hrun.
  destruct (Z.ltb_spec t0 total) as [Hlt|Hge].
  - destruct (rollout hp fuel w) as [[b w1]|] eqn:Hroll; [|discriminate].
    destruct (learn_loop fuel total (t0 + np_sum (b_lens b))
                (fst (update b w1))) as [[w3 cs]|] eqn:Hrest; [|discriminate].
    injection Hrun as <- <-.
    destruct (IH _ _ _ _ Hrest) as ((scores & Hp & Hn) & _ & Htot & Hpre).
    destruct (rollout_networks_plots _ _ _ Hroll)
      as (_ & _ & scores0 & Hp0 & Hn0).
    destruct (update_frame b w1) as (_ & _ & Hpu).
    split; [|split; [|split]].
    + exists (scores0 ++ scores).
      rewrite Hp, Hpu, Hp0, app_assoc, length_app. split; [reflexivity|].
      cbn [total_episodes fold_right cl_batch]. fold (total_episodes cs). lia.
    + split; [discriminate|lia].
    + cbn [total_lens fold_right cl_batch]. fold (total_lens cs). lia.
    + intros pre c post E. destruct pre as [|c0 pre].
      * injection E as <- _. cbn [app total_lens fold_right cl_t_so_far cl_batch].
        lia.
      * injection E as <- E. destruct (Hpre pre c post E) as [Hc Hl].
        cbn [app total_lens fold_right cl_batch] in *.
        fold (total_lens (pre ++ [c])). fold (total_lens pre). lia.
  - injection Hrun as <- <-. split; [|split; [|split]].
    + exists []. now rewrite app_nil_r.
    + split; [lia|reflexivity].
    + simpl. lia.
    + intros [|c0 pre] c post E; discriminate.
Qed.

(** X9.  The counter of [learn]: after every pass it is the sum of
    [sum(batch_lens)] over the passes made so far; a pass is made only
    while the counter is below the budget, and when [learn] returns the
    counter has reached the budget; no pass is made exactly when the budget
    is [0] or less. *)
Theorem learn_counter fuel total (w w' : World) cycles :
  learn fuel total w = Some (w', cycles) ->
  (cycles = [] <-> (total <= 0)%Z)
  /\ (total <= total_lens cycles)%Z
  /\ forall pre c post,
       cycles = pre ++ c :: post ->
       cl_t_so_far c = total_lens (pre ++ [c])
       /\ (total_lens pre < total)%Z.
Proof.
  intro Hrun. destruct (learn_loop_trace _ _ _ _ Hrun) as (_ & He & Ht & Hc).
  split; [exact He|]. split; [lia|].
  intros pre c post E. destruct (Hc pre c post E). split; lia.
Qed.

(** X10.  [learn] leaves the environment's scores to [plot] only through
    [rollout]: the scores plotted during a call are one per episode of the
    batches collected, appended to those plotted before. *)
Theorem learn_plots fuel total (w w' : World) cycles :
  learn fuel total w = Some (w', cycles) ->
  exists scores,
    w_plots w' = w_plots w ++ scores
    /\ length scores = total_episodes cycles.
Proof. intro Hrun. exact (proj1 (learn_loop_trace _ _ _ _ Hrun)). Qed.

Lemma learn_loop_terminates :
  reset_episodes_terminate (T := R) ->
  (0 < timesteps_per_batch hp)%Z ->
  forall total (n : nat) t_so_far (w : World),
    Z.to_nat (total - t_so_far) <= n ->
    exists fuel w' cycles,
      learn_loop fuel total t_so_far w = Some (w', cycles)
      /\ length cycles <= n.
Proof.
  intros Hterm Hpos total. induction n as [|n IH]; intros t0 w Hn.
  - exists 1, w, []. rewrite learn_loop_S.
    destruct (Z.ltb_spec t0 total); [lia|]. now split.
  - destruct (Z.ltb_spec t0 total) as [Hlt|Hge].
    + destruct (@rollout_terminates_from _ _ _ _ _ _ _ _ _ _ _ hp w
                  (@reset_episodes_terminate_from _ _ _ _ _ _ _ _ _ _ w Hterm))
        as (f1 & b & w1 & Hroll).
      pose proof (rollout_length_ge _ _ _ Hroll) as Hge.
      pose proof (rollout_lens_sum _ _ _ Hroll) as Hsum.
      destruct (IH (t0 + np_sum (b_lens b))%Z (fst (update b w1)))
        as (f2 & w3 & cs & Hrest & Hlen); [lia|].
      exists (S (Nat.max f1 f2)), w3. eexists.
      rewrite learn_loop_S.
      destruct (Z.ltb_spec t0 total); [|lia].
      rewrite (@rollout_mono _ _ _ _ _ _ _ _ _ _ _ hp f1 (Nat.max f1 f2) w
                 (b, w1) (Nat.le_max_l _ _) Hroll).
      rewrite (learn_loop_mono _ _ _ (Nat.le_max_r f1 f2) Hrest).
      split; [reflexivity|]. simpl. lia.
    + exists 1, w, []. rewrite learn_loop_S.
      destruct (Z.ltb_spec t0 total); [lia|]. split; [reflexivity|simpl; lia].
Qed.

(** X11.  With an environment in which every episode started by
    [env.reset] reaches a step that reports [done], and a positive
    [timesteps_per_batch], [learn] returns for every budget, after at most
    as many passes as the budget counts timesteps. *)
Theorem learn_terminates (total : Z) (w : World) :
  reset_episodes_terminate (T := R) ->
  (0 < timesteps_per_batch hp)%Z ->
  exists fuel w' cycles,
    learn fuel total w = Some (w', cycles)
    /\ length cycles <= Z.to_nat total.
Proof.
  intros Hterm Hpos.
  apply (@learn_loop_terminates Hterm Hpos total (Z.to_nat total) 0%Z w).
  rewrite Z.sub_0_r. lia.
Qed.

End Learn.

(** *** A corridor of [len] cells

    A small environment to run the loops on: every step moves one cell
    forward, is rewarded with the cell reached, and reports [done] at the
    end of the corridor; the observation is the cell.  The random source is
    a counter, the action sampled is its value modulo four.  A corridor of
    one cell is the environment that ends every episode after one step. *)
Definition corridor (T LogP : Type) (len : nat) (rew : nat -> T)
  (lp : Z -> LogP) : Collaborators nat nat unit nat Z unit LogP T nat :=
  {| env_reset := fun _ => (0, 0);
     env_step := fun _ cell => ((S cell, rew (S cell), len <=? S cell), S cell);
     env_get_score := fun cell => cell;
     actor_forward := fun _ _ => tt;
     dist_sample := fun _ g => (Z.of_nat (g mod 4), S g);
     dist_log_prob := fun _ a => lp a;
     act_argmax := fun a => a |}.

Definition corridor_Z (len : nat) : Collaborators nat nat unit nat Z unit Z Z nat :=
  corridor len Z.of_nat Z.opp.

Definition corridor_R (len : nat) : Collaborators nat nat unit nat Z unit R R nat :=
  corridor len INR (fun a => IZR (- a)).

(** A critic that answers [0] and an optimizer that leaves the parameters
    alone. *)
Definition idle_optimisation : Optimisation unit nat :=
  {| critic_forward := fun _ _ => 0%R; adam_step := fun _ p => p |}.

Definition world0 : @world nat nat unit nat :=
  {| w_env := 0; w_rng := 0; w_actor := tt; w_critic := tt; w_plots := [] |}.

(** Three timesteps per batch, no discounting. *)
Definition hp3 : hyperparameters Z :=
  {| timesteps_per_batch := 3; gamma := 1%Z;
     n_updates_per_iteration := 5; clip := 2 / 10 |}.

Definition hp3_R : hyperparameters R :=
  {| timesteps_per_batch := 3; gamma := 1%R;
     n_updates_per_iteration := 5; clip := 2 / 10 |}.

(** Corridors of two cells: two episodes of two steps each. *)
Example rollout_corridor_2 :
  option_map fst (rollout (Col := corridor_Z 2) hp3 10 world0)
  = Some {| b_obs := [0; 1; 0; 1];
            b_acts := [0; 1; 2; 3]%Z;
            b_log_probs := [0; -1; -2; -3]%Z;
            b_rtgs := [3; 2; 3; 2]%Z;
            b_lens := [3; 3]%Z |}.
Proof. reflexivity. Qed.

Lemma corridor_1_done (T LogP : Type) (rew : nat -> T) (lp : Z -> LogP) :
  forall k env, snd (fst (env_step (Collaborators := corridor 1 rew lp) k env))
                = true.
Proof. reflexivity. Qed.

(** C5 fails on the code.  [rollout] appends [ep_t + 1] to [batch_lens]
    after a loop that has already counted every step in [ep_t]: with
    episodes of one step and three timesteps per batch, the batch holds
    three timesteps and [batch_lens] is [2, 2, 2], of sum six; [learn]
    advances its counter by six. *)
Theorem rollout_lens_off_by_one :
  (exists b w',
      rollout (Col := corridor_Z 1) hp3 10 world0 = Some (b, w')
      /\ length (b_obs b) = 3
      /\ b_lens b = [2; 2; 2]%Z
      /\ np_sum (b_lens b) = 6%Z)
  /\ exists fuel w' c,
       learn (Col := corridor_R 1) (Opt := idle_optimisation) hp3_R fuel 3
         world0 = Some (w', [c])
       /\ length (b_obs (cl_batch c)) = 3
       /\ cl_t_so_far c = 6%Z.
Proof.
  split.
  - eexists. eexists. split; [vm_compute; reflexivity|]. now repeat split.
  - destruct (learn_single_cycle (Col := corridor_R 1)
                (Opt := idle_optimisation) hp3_R world0)
      as (fuel & w' & c & Hrun & _ & Ht & f & w1 & Hroll).
    + apply always_done_terminates. reflexivity.
    + reflexivity.
    + exists fuel, w', c. split; [exact Hrun|].
      pose proof (rollout_lens_sum _ _ _ Hroll) as Hsum.
      unfold rollout in Hroll.
      destruct (rollout_loop hp3_R f (acc_init world0)) as [a|] eqn:Hloop;
        [|discriminate].
      injection Hroll as Hb _.
      assert (Ha : rollout_loop (Col := corridor_R 1) hp3_R 10
                     (acc_init world0) = Some a).
      { destruct (rollout_loop (Col := corridor_R 1) hp3_R 10
                    (acc_init world0)) as [a'|] eqn:H10;
          [|vm_compute in H10; discriminate].
        pose proof (rollout_loop_mono hp3_R _ (Nat.le_max_l f 10) Hloop)
          as E1.
        pose proof (rollout_loop_mono hp3_R _ (Nat.le_max_r f 10) H10)
          as E2.
        congruence. }
      rewrite Ht, <- Hb. cbn [batch_of b_obs b_lens].
      assert (Hobs : length (batch_obs a) = 3 /\ batch_lens a = [2; 2; 2]%Z).
      { vm_compute in Ha. injection Ha as <-. now split. }
      destruct Hobs as [-> ->]. now split.
Qed.

(** An environment with a trap: [reset] puts the player in cell [0], from
    which every step ends the episode; from any other cell no step ever
    does.  Its episodes all end, but not from every state. *)
Definition trap (T LogP : Type) (rew : T) (lp : Z -> LogP)
  : Collaborators nat nat unit nat Z unit LogP T nat :=
  {| env_reset := fun _ => (0, 0);
     env_step := fun _ cell => ((cell, rew, cell =? 0), cell);
     env_get_score := fun cell => cell;
     actor_forward := fun _ _ => tt;
     dist_sample := fun _ g => (Z.of_nat (g mod 4), S g);
     dist_log_prob := fun _ a => lp a;
     act_argmax := fun a => a |}.

Lemma trap_reset_episodes_terminate (T LogP : Type) (rew : T)
  (lp : Z -> LogP) :
  reset_episodes_terminate (Col := trap rew lp).
Proof.
  intros w o env' Hreset. injection Hreset as <- <-.
  eexists. eexists. eapply steps_last; reflexivity.
Qed.

Lemma rollout_reaches_target_witness :
  (exists b w' (a : @acc nat nat unit nat Z Z Z nat) eps last,
      rollout (Col := corridor_Z 2) hp3 10 world0 = Some (b, w')
      /\ (3 <= Z.of_nat (length (b_obs b)))%Z
      /\ episodes (Col := corridor_Z 2) world0 (batch_rews a) w'
      /\ batch_rews a = eps ++ [last]
      /\ (Z.of_nat (length (b_obs b)) - 3 < Z.of_nat (length last))%Z)
  /\ exists fuel b w',
       rollout (Col := trap 1%Z Z.opp) hp3 fuel world0 = Some (b, w').
Proof.
  split.
  - destruct (rollout (Col := corridor_Z 2) hp3 10 world0) as [[b w']|] eqn:E;
      [|vm_compute in E; discriminate].
    destruct (proj1 (rollout_reaches_target (Col := corridor_Z 2) hp3 world0)
                10 b w' E) as (Hge & a & _ & _ & Heps & _ & Hlast).
    destruct (Hlast eq_refl) as (eps & last & Hrews & _ & _ & _ & Hover).
    exists b, w', a, eps, last. repeat split; assumption.
  - apply (proj2 (rollout_reaches_target (Col := trap 1%Z Z.opp) hp3 world0)).
    apply reset_episodes_terminate_from.
    apply trap_reset_episodes_terminate.
Defined.

Lemma rollout_aligned_witness :
  exists b w',
    rollout (Col := corridor_Z 2) hp3 10 world0 = Some (b, w')
    /\ length (b_acts b) = length (b_obs b)
    /\ length (b_log_probs b) = length (b_obs b).
Proof.
  destruct (rollout (Col := corridor_Z 2) hp3 10 world0) as [[b w']|] eqn:E;
    [|vm_compute in E; discriminate].
  destruct (rollout_aligned (Col := corridor_Z 2) hp3 10 world0 E)
    as (Ha & Hl & _).
  exists b, w'. repeat split; assumption.
Defined.

Lemma rtgs_fixed_in_cycle_witness :
  exists fuel w' cycles,
    learn (Col := corridor_R 1) (Opt := idle_optimisation) hp3_R fuel 3 world0
    = Some (w', cycles)
    /\ Forall
         (fun c =>
            Forall (fun e => el_rtgs e = b_rtgs (cl_batch c)) (cl_epochs c))
         cycles.
Proof.
  destruct (learn_single_cycle (Col := corridor_R 1)
              (Opt := idle_optimisation) hp3_R world0)
    as (fuel & w' & c & Hrun & _).
  - apply always_done_terminates. reflexivity.
  - reflexivity.
  - exists fuel, w', [c]. split; [exact Hrun|].
    pose proof (rtgs_fixed_in_cycle (Col := corridor_R 1)
                  (Opt := idle_optimisation) hp3_R fuel 3 world0 Hrun) as Hall.
    revert Hall. apply Forall_impl. intros c0 (_ & _ & Hc).
    revert Hc. apply Forall_impl. intros e [He _]. exact He.
Defined.

Lemma actor_loss_clipped_surrogate_witness :
  exists fuel w' c,
    learn (Col := corridor_R 1) (Opt := idle_optimisation) hp3_R fuel 3 world0
    = Some (w', [c])
    /\ length (cl_epochs c) = 5
    /\ Forall
         (fun e =>
            el_actor_loss e
            = clipped_surrogate (Col := corridor_R 1) hp3_R (cl_batch c)
                (cl_A_k c) (w_actor (el_world e)))
         (cl_epochs c).
Proof.
  destruct (learn_single_cycle (Col := corridor_R 1)
              (Opt := idle_optimisation) hp3_R world0)
    as (fuel & w' & c & Hrun & _).
  - apply always_done_terminates. reflexivity.
  - reflexivity.
  - exists fuel, w', c. split; [exact Hrun|].
    pose proof (proj2 (actor_loss_clipped_surrogate (Col := corridor_R 1)
                         (Opt := idle_optimisation) hp3_R)
                  fuel 3%Z world0 w' [c] Hrun) as Hall.
    apply Forall_inv in Hall. exact Hall.
Defined.

Lemma learn_one_cycle_witness :
  exists fuel w' c,
    learn (Col := corridor_R 1) (Opt := idle_optimisation)
      init_hyperparameters fuel 10000 world0 = Some (w', [c])
    /\ length (cl_epochs c) = 5.
Proof.
  destruct (learn_one_cycle (Col := corridor_R 1) (Opt := idle_optimisation)
              init_hyperparameters world0)
    as (fuel & w' & c & Hrun & Hlen & _).
  - reflexivity.
  - reflexivity.
  - exists fuel, w', c. split; [exact Hrun|exact Hlen].
Defined.

Lemma rollout_shapes_witness :
  exists b w',
    rollout (Col := corridor_Z 2) hp3 10 world0 = Some (b, w')
    /\ length (b_rtgs b) = length (b_obs b)
    /\ Forall (fun l => (2 <= l)%Z) (b_lens b).
Proof.
  destruct (rollout (Col := corridor_Z 2) hp3 10 world0) as [[b w']|] eqn:E;
    [|vm_compute in E; discriminate].
  destruct (rollout_shapes (Col := corridor_Z 2) hp3 10 world0 E)
    as (Hr & Hl & _).
  exists b, w'. repeat split; assumption.
Defined.

Lemma rollout_frame_witness :
  exists b w',
    rollout (Col := corridor_Z 2) hp3 10 world0 = Some (b, w')
    /\ w_actor w' = w_actor world0
    /\ w_critic w' = w_critic world0.
Proof.
  destruct (rollout (Col := corridor_Z 2) hp3 10 world0) as [[b w']|] eqn:E;
    [|vm_compute in E; discriminate].
  destruct (rollout_frame (Col := corridor_Z 2) hp3 10 world0 E)
    as (Ha & Hc & _).
  exists b, w'. repeat split; assumption.
Defined.

Lemma corridor_R_terminates :
  episodes_terminate (Col := corridor_R 1).
Proof. apply always_done_terminates. reflexivity. Qed.

Lemma first_epoch_on_policy_witness :
  exists fuel w' c,
    learn (Col := corridor_R 1) (Opt := idle_optimisation) hp3_R fuel 3 world0
    = Some (w', [c])
    /\ length (cl_epochs c) = 5
    /\ forall e0 rest, cl_epochs c = e0 :: rest -> el_actor_loss e0 = 0%R.
Proof.
  destruct (learn_single_cycle (Col := corridor_R 1)
              (Opt := idle_optimisation) hp3_R world0
              corridor_R_terminates eq_refl)
    as (fuel & w' & c & Hrun & Hlen & _).
  exists fuel, w', c. split; [exact Hrun|]. split; [exact Hlen|].
  assert (Hclip : (0 <= clip hp3_R)%R) by (simpl; lra).
  assert (HT : (2 <= timesteps_per_batch hp3_R)%Z) by (simpl; lia).
  pose proof (first_epoch_on_policy (Col := corridor_R 1)
                (Opt := idle_optimisation) hp3_R fuel 3 world0
                Hclip HT Hrun) as Hall.
  apply Forall_inv in Hall. intros e0 rest E. exact (proj2 (Hall e0 rest E)).
Defined.

Lemma advantages_fixed_in_cycle_witness :
  exists fuel w' c,
    learn (Col := corridor_R 1) (Opt := idle_optimisation) hp3_R fuel 3 world0
    = Some (w', [c])
    /\ cycles_from (Col := corridor_R 1) (Opt := idle_optimisation) hp3_R
         world0 [c].
Proof.
  destruct (learn_single_cycle (Col := corridor_R 1)
              (Opt := idle_optimisation) hp3_R world0
              corridor_R_terminates eq_refl)
    as (fuel & w' & c & Hrun & _).
  exists fuel, w', c. split; [exact Hrun|].
  exact (advantages_fixed_in_cycle (Col := corridor_R 1)
           (Opt := idle_optimisation) hp3_R fuel 3 world0 Hrun).
Defined.

Lemma learn_counter_witness :
  exists fuel w' c,
    learn (Col := corridor_R 1) (Opt := idle_optimisation) hp3_R fuel 3 world0
    = Some (w', [c])
    /\ cl_t_so_far c = total_lens [c]
    /\ (3 <= total_lens [c])%Z.
Proof.
  destruct (learn_single_cycle (Col := corridor_R 1)
              (Opt := idle_optimisation) hp3_R world0
              corridor_R_terminates eq_refl)
    as (fuel & w' & c & Hrun & _).
  exists fuel, w', c. split; [exact Hrun|].
  destruct (learn_counter (Col := corridor_R 1)
              (Opt := idle_optimisation) hp3_R fuel 3 world0 Hrun)
    as (_ & Htot & Hc).
  split; [|exact Htot].
  exact (proj1 (Hc [] c [] eq_refl)).
Defined.

Lemma learn_plots_witness :
  exists fuel w' c scores,
    learn (Col := corridor_R 1) (Opt := idle_optimisation) hp3_R fuel 3 world0
    = Some (w', [c])
    /\ w_plots w' = w_plots world0 ++ scores
    /\ length scores = total_episodes [c].
Proof.
  destruct (learn_single_cycle (Col := corridor_R 1)
              (Opt := idle_optimisation) hp3_R world0
              corridor_R_terminates eq_refl)
    as (fuel & w' & c & Hrun & _).
  destruct (learn_plots (Col := corridor_R 1)
              (Opt := idle_optimisation) hp3_R fuel 3 world0 Hrun)
    as (scores & Hp & Hn).
  exists fuel, w', c, scores. split; [exact Hrun|]. split; assumption.
Defined.

Lemma learn_terminates_witness :
  exists fuel w' cycles,
    learn (Col := trap 1%R (fun a => IZR (- a))) (Opt := idle_optimisation)
      init_hyperparameters fuel 100000 world0 = Some (w', cycles)
    /\ length cycles <= Z.to_nat 100000.
Proof.
  apply (learn_terminates (Col := trap 1%R (fun a => IZR (- a)))
           (Opt := idle_optimisation) init_hyperparameters 100000 world0).
  - apply trap_reset_episodes_terminate.
  - reflexivity.
Defined.

End PPO.

(** ** The DQN agent (agent.py) *)

Module DQN.

Definition MAX_MEMOMRY : Z := 100000.
Definition BATCH_SIZE : Z := 1000.

(** *** [collections.deque(maxlen=n)]

    [append] adds on the right and, when the length then exceeds [maxlen],
    pops one item on the left. *)
Record deque (A : Type) : Type :=
  { maxlen : Z;
    items : list A }.

Definition deque_new (A : Type) (n : Z) : deque A :=
  {| maxlen := n; items := [] |}.

Definition deque_append (A : Type) (d : deque A) (x : A) : deque A :=
  let l := items d ++ [x] in
  {| maxlen := maxlen d;
     items := if (maxlen d <? Z.of_nat (length l))%Z then tl l else l |}.

(** The last [c] items of a list (all of it when it is shorter). *)
Definition lastn (A : Type) (c : nat) (l : list A) : list A :=
  skipn (length l - c) l.

Lemma lastn_length (A : Type) (c : nat) (l : list A) :
  length (lastn c l) = Nat.min (length l) c.
Proof. unfold lastn. rewrite length_skipn. lia. Qed.

Lemma lastn_app (A : Type) (c : nat) (l xs : list A) :
  lastn c (lastn c l ++ xs) = lastn c (l ++ xs).
Proof.
  unfold lastn at 2.
  replace (skipn (length l - c) l ++ xs)
    with (skipn (length l - c) (l ++ xs)).
  - unfold lastn. rewrite skipn_skipn, length_skipn, length_app. f_equal. lia.
  - rewrite skipn_app. f_equal.
    replace (length l - c - length l) with 0 by lia. reflexivity.
Qed.

Lemma deque_append_items (A : Type) (d : deque A) (x : A) :
  (0 <= maxlen d)%Z ->
  length (items d) <= Z.to_nat (maxlen d) ->
  items (deque_append d x) = lastn (Z.to_nat (maxlen d)) (items d ++ [x]).
Proof.
  intros Hc Hlen. unfold deque_append, lastn. cbn [items maxlen].
  rewrite length_app. cbn [length].
  destruct (Z.ltb_spec (maxlen d) (Z.of_nat (length (items d) + 1))) as [Hlt|Hge].
  - replace (length (items d) + 1 - Z.to_nat (maxlen d)) with 1 by lia.
    now destruct (items d ++ [x]).
  - replace (length (items d) + 1 - Z.to_nat (maxlen d)) with 0 by lia.
    reflexivity.
Qed.

Lemma deque_append_maxlen (A : Type) (d : deque A) (x : A) :
  maxlen (deque_append d x) = maxlen d.
Proof. reflexivity. Qed.

Lemma deque_append_In (A : Type) (d : deque A) (x y : A) :
  In y (items (deque_append d x)) -> In y (items d) \/ y = x.
Proof.
  unfold deque_append. cbn [items].
  intro Hin.
  assert (Hl : In y (items d ++ [x])).
  { destruct (maxlen d <? _)%Z; [|exact Hin].
    destruct (items d ++ [x]); [exact Hin|now right]. }
  apply in_app_or in Hl. destruct Hl as [Hl|[Hl|[]]]; [now left|now right].
Qed.

Lemma deque_fold_items (A : Type) (xs : list A) (d : deque A) :
  (0 <= maxlen d)%Z ->
  length (items d) <= Z.to_nat (maxlen d) ->
  let d' := fold_left (@deque_append A) xs d in
  maxlen d' = maxlen d
  /\ items d' = lastn (Z.to_nat (maxlen d)) (items d ++ xs).
Proof.
  revert d. induction xs as [|x xs IH]; intros d Hc Hlen; cbn [fold_left].
  - split; [reflexivity|]. rewrite app_nil_r. unfold lastn.
    replace (length (items d) - Z.to_nat (maxlen d)) with 0 by lia.
    reflexivity.
  - destruct (IH (deque_append d x)) as [Hm Hi].
    + exact Hc.
    + rewrite deque_append_items by assumption.
      rewrite lastn_length, deque_append_maxlen. lia.
    + split; [exact Hm|]. rewrite Hi, deque_append_maxlen.
      rewrite deque_append_items by assumption.
      rewrite lastn_app, <- app_assoc. reflexivity.
Qed.

(** *** Collaborators of agent.py

    [GameInstance] (the getters read the game, [update] plays a move), the
    [random] module, the model and the trainer, which agent.py leaves to be
    added ([self.model = None], [self.trainer = None]). *)
Class Game (G Rew : Type) : Type :=
  { get_pacman_pos : G -> Z * Z;
    get_ghosts_pos : G -> list (Z * Z);
    get_surroundings : G -> Z * Z * Z * Z;
    get_score : G -> Z;
    game_update : Key -> G -> (Rew * bool * Z) * G }.

Class Random (Rng : Type) : Type :=
  { randint : Z -> Z -> Rng -> Z * Rng;
    rand_sample : forall A : Type, list A -> Z -> Rng -> list A * Rng }.

(** The observation vector built by [get_state]. *)
Definition State : Type := list Z.

(** The arguments of one call of [trainer.train_step]: the five values of
    one transition, or five tuples (the columns of a sample). *)
Inductive train_args (Rew : Type) : Type :=
| One (state : State) (action : Key) (reward : Rew) (next_state : State)
    (done : bool)
| Many (states : list State) (actions : list Key) (rewards : list Rew)
    (next_states : list State) (dones : list bool).

Class Learner (Model Trainer Rew : Type) : Type :=
  { predict_argmax : Model -> State -> Z;   (* argmax(model.predict(_)).item() *)
    train_step : Trainer -> train_args Rew -> Trainer }.

Inductive exn : Type := AttributeError | ValueError.

Section Agent.

Context {G Rng Model Trainer Rew : Type}.
Context `{Gm : Game G Rew} `{Rnd : Random Rng}
  `{Lrn : Learner Model Trainer Rew}.

Definition Transition : Type := State * Key * Rew * State * bool.

Definition tr_action (tr : Transition) : Key :=
  match tr with (_, action, _, _, _) => action end.

Record Agent : Type :=
  { n_games : Z;
    epsilon : Z;
    gamma : Z;
    memory : deque Transition;
    model : option Model;
    trainer : option Trainer }.

(** [Agent.__init__] *)
Definition Agent_init : Agent :=
  {| n_games := 0; epsilon := 0; gamma := 0;
     memory := deque_new Transition MAX_MEMOMRY;
     model := None; trainer := None |}.

(** Calls made on the collaborators, in order (ghost data). *)
Inductive call : Type :=
| Call_update (move : Key)
| Call_train_step (args : train_args Rew)
| Call_print (n_games score record : Z).

(** The objects that [train] works on. *)
Record st : Type :=
  { agent : Agent;
    game : G;
    rng : Rng;
    calls : list call }.

Definition set_agent (ag : Agent) (s : st) : st :=
  {| agent := ag; game := game s; rng := rng s; calls := calls s |}.
Definition set_game (g : G) (s : st) : st :=
  {| agent := agent s; game := g; rng := rng s; calls := calls s |}.
Definition set_rng (r : Rng) (s : st) : st :=
  {| agent := agent s; game := game s; rng := r; calls := calls s |}.
Definition add_call (c : call) (s : st) : st :=
  {| agent := agent s; game := game s; rng := rng s;
     calls := calls s ++ [c] |}.

(** A computation returns a value or raises, and leaves a state. *)
Inductive result (A : Type) : Type :=
| Ok (a : A) (s : st)
| Raise (e : exn) (s : st).

Arguments Raise {A} e s.

Definition M (A : Type) : Type := st -> result A.

Definition ret (A : Type) (a : A) : M A := fun s => Ok a s.

Definition bind (A B : Type) (m : M A) (k : A -> M B) : M B :=
  fun s => match m s with
           | Ok a s' => k a s'
           | Raise e s' => Raise e s'
           end.

Definition raise (A : Type) (e : exn) : M A := fun s => Raise e s.

Arguments raise {A} e.

Definition state_of (A : Type) (r : result A) : st :=
  match r with Ok _ s => s | Raise _ s => s end.

Notation "x <- m ;; k" := (bind m (fun x => k))
  (at level 61, m at next level, right associativity).
Notation "m ;;; k" := (bind m (fun _ => k))
  (at level 61, right associativity).

(** [Agent.get_state] *)
Definition Agent_get_state : M State :=
  fun s =>
    let '(pac_row, pac_col) := get_pacman_pos (game s) in
    let ghosts_pos := get_ghosts_pos (game s) in
    let '(c_up, c_right, c_down, c_left) := get_surroundings (game s) in
    let score := get_score (game s) in
    let state :=
      [pac_row; pac_col; c_up; c_right; c_down; c_left; score] in
    let state :=
      fold_left (fun state pos => state ++ [fst pos] ++ [snd pos])
        ghosts_pos state in
    Ok state s.

(** [Agent.remember] *)
Definition remember (ag : Agent) (tr : Transition) : Agent :=
  {| n_games := n_games ag; epsilon := epsilon ag; gamma := gamma ag;
     memory := deque_append (memory ag) tr;
     model := model ag; trainer := trainer ag |}.

Definition Agent_remember (state : State) (action : Key) (reward : Rew)
  (next_state : State) (done : bool) : M unit :=
  fun s =>
    Ok tt (set_agent
             (remember (agent s) (state, action, reward, next_state, done)) s).

(** [self.trainer.train_step(...)]: the attribute lookup on [None]
    raises. *)
Definition call_train_step (args : train_args Rew) : M unit :=
  fun s =>
    match trainer (agent s) with
    | None => Raise AttributeError s
    | Some t =>
        let ag := agent s in
        Ok tt (add_call (Call_train_step args)
                 (set_agent
                    {| n_games := n_games ag; epsilon := epsilon ag;
                       gamma := gamma ag; memory := memory ag;
                       model := model ag;
                       trainer := Some (train_step t args) |} s))
    end.

(** [Agent.train_short_memory] *)
Definition Agent_train_short_memory (state : State) (action : Key)
  (reward : Rew) (next_state : State) (done : bool) : M unit :=
  call_train_step (One state action reward next_state done).

(** [zip] of the unpacked [mini_sample], assigned to five names: the five
    columns; with no row there is nothing to assign. *)
Definition unzip5 (l : list Transition) : M (train_args Rew) :=
  match l with
  | [] => raise ValueError
  | _ =>
      ret (Many (map (fun tr => match tr with (x, _, _, _, _) => x end) l)
             (map tr_action l)
             (map (fun tr => match tr with (_, _, x, _, _) => x end) l)
             (map (fun tr => match tr with (_, _, _, x, _) => x end) l)
             (map (fun tr => match tr with (_, _, _, _, x) => x end) l))
  end.

(** [Agent.train_long_memory] *)
Definition Agent_train_long_memory : M unit :=
  mini_sample <-
    (fun s =>
       let mem := items (memory (agent s)) in
       if (Z.of_nat (length mem) >? BATCH_SIZE)%Z then
         let '(sample, r) := rand_sample mem BATCH_SIZE (rng s) in
         Ok sample (set_rng r s)
       else Ok mem s) ;;
  args <- unzip5 mini_sample ;;
  call_train_step args.

Definition set_epsilon (e : Z) : M unit :=
  fun s =>
    let ag := agent s in
    Ok tt (set_agent
             {| n_games := n_games ag; epsilon := e; gamma := gamma ag;
                memory := memory ag; model := model ag;
                trainer := trainer ag |} s).

Definition random_randint (lo hi : Z) : M Z :=
  fun s => let '(x, r) := randint lo hi (rng s) in Ok x (set_rng r s).

(** [Agent.get_action] *)
Definition Agent_get_action (state : State) : M Key :=
  (fun s => set_epsilon (80 - n_games (agent s)) s) ;;;
  x <- random_randint 0 200 ;;
  (fun s =>
     if (x <? epsilon (agent s))%Z then
       (move <- random_randint 0 3 ;; ret (key_of_move move)) s
     else
       match model (agent s) with
       | None => Raise AttributeError s        (* self.model.predict *)
       | Some m => Ok (key_of_move (predict_argmax m state)) s
       end).

(** [game.update(final_move)] *)
Definition call_game_update (move : Key) : M (Rew * bool * Z) :=
  fun s =>
    let '(r, g) := game_update move (game s) in
    Ok r (add_call (Call_update move) (set_game g s)).

Definition incr_n_games : M unit :=
  fun s =>
    let ag := agent s in
    Ok tt (set_agent
             {| n_games := n_games ag + 1; epsilon := epsilon ag;
                gamma := gamma ag; memory := memory ag; model := model ag;
                trainer := trainer ag |} s).

Definition print_game (score record : Z) : M unit :=
  fun s => Ok tt (add_call (Call_print (n_games (agent s)) score record) s).

(** The block under [if done:] in [train]; [record] is the local variable
    of [train], returned updated. *)
Definition train_game_over (record score : Z) : M Z :=
  incr_n_games ;;;
  Agent_train_long_memory ;;;
  let record := if (score >? record)%Z then score else record in
  print_game score record ;;;
  ret record.

(** The body of [while True] in [train], from the assignment
    [final_move = pygame.K_RIGHT] on. *)
Definition train_after_action (record : Z) (state_old : State)
  (final_move : Key) : M Z :=
  let final_move := K_RIGHT in
  rds <- call_game_update final_move ;;
  let '(reward, done, score) := rds in
  state_new <- Agent_get_state ;;
  Agent_train_short_memory state_old final_move reward state_new done ;;;
  Agent_remember state_old final_move reward state_new done ;;;
  if done : bool then train_game_over record score else ret record.

Definition train_body (record : Z) : M Z :=
  state_old <- Agent_get_state ;;
  final_move <- Agent_get_action state_old ;;
  train_after_action record state_old final_move.

(** [n] passes of the [while True] loop of [train] (which has no exit). *)
Fixpoint train_loop (n : nat) (record : Z) : M Z :=
  match n with
  | O => ret record
  | S n' => record' <- train_body record ;; train_loop n' record'
  end.

(** *** The replay memory *)

Lemma remember_fold (xs : list Transition) (ag : Agent) :
  memory (fold_left remember xs ag)
  = fold_left (@deque_append Transition) xs (memory ag).
Proof.
  revert ag. induction xs as [|x xs IH]; intro ag; [reflexivity|].
  cbn [fold_left]. now rewrite IH.
Qed.

Lemma MAX_MEMOMRY_nat : Z.of_nat (Z.to_nat MAX_MEMOMRY) = MAX_MEMOMRY.
Proof. reflexivity. Qed.

(** C9.  After any sequence of [remember] calls on a new agent the memory
    holds at most 100,000 transitions, namely the last 100,000 remembered
    (all of them when there are fewer), in the order of insertion; one more
    [remember] appends on the right and, when 100,000 or more have been
    remembered, drops the leftmost, oldest, one; after 100,001 insertions
    the memory is the last 100,000 of them: the first is gone. *)
Theorem replay_memory_fifo (xs : list Transition) :
  let ag := fold_left remember xs Agent_init in
  (Z.of_nat (length (items (memory ag))) <= MAX_MEMOMRY)%Z
  /\ items (memory ag) = lastn (Z.to_nat MAX_MEMOMRY) xs
  /\ (forall tr,
        items (memory (remember ag tr))
        = if (Z.of_nat (length xs) <? MAX_MEMOMRY)%Z
          then items (memory ag) ++ [tr]
          else tl (items (memory ag)) ++ [tr])
  /\ (forall first rest,
        xs = first :: rest ->
        Z.of_nat (length rest) = MAX_MEMOMRY ->
        items (memory ag) = rest
        /\ Z.of_nat (length (items (memory ag))) = 100000%Z).
Proof.
  intro ag.
  pose proof (remember_fold xs Agent_init) as Hmem. fold ag in Hmem.
  destruct (@deque_fold_items Transition xs (memory Agent_init))
    as [Hmax Hitems]; [discriminate|simpl; lia|].
  rewrite <- Hmem in Hmax, Hitems.
  change (maxlen (memory Agent_init)) with MAX_MEMOMRY in Hmax, Hitems.
  change (items (memory Agent_init) ++ xs) with xs in Hitems.
  assert (Hlen : length (items (memory ag))
                 = Nat.min (length xs) (Z.to_nat MAX_MEMOMRY))
    by (rewrite Hitems; apply lastn_length).
  pose proof MAX_MEMOMRY_nat as Hnat.
  split; [lia|]. split; [exact Hitems|]. split.
  - intro tr. cbn [remember memory]. unfold deque_append. cbn [items].
    rewrite length_app. cbn [length]. rewrite Hmax.
    destruct (Z.ltb_spec (Z.of_nat (length xs)) MAX_MEMOMRY) as [Hlt|Hge].
    + destruct (Z.ltb_spec MAX_MEMOMRY
                  (Z.of_nat (length (items (memory ag)) + 1))); [lia|].
      reflexivity.
    + destruct (Z.ltb_spec MAX_MEMOMRY
                  (Z.of_nat (length (items (memory ag)) + 1))); [|lia].
      destruct (items (memory ag)) as [|y l]; [|reflexivity].
      simpl in Hlen. unfold MAX_MEMOMRY in *. lia.
  - intros first rest -> Hrest.
    assert (E : items (memory ag) = rest).
    { rewrite Hitems. unfold lastn. cbn [length].
      replace (S (length rest) - Z.to_nat MAX_MEMOMRY) with 1 by lia.
      reflexivity. }
    split; [exact E|]. rewrite E. exact Hrest.
Qed.

(** *** The move that [train] plays *)

(** A call that carries a move carries [K_RIGHT]. *)
Definition right_call (c : call) : Prop :=
  match c with
  | Call_update move => move = K_RIGHT
  | Call_train_step (One _ action _ _ _) => action = K_RIGHT
  | _ => True
  end.

(** From [s] to [s']: the calls made since carry [K_RIGHT], and so do the
    transitions that the memory did not hold before. *)
Record moved_right (s s' : st) : Prop :=
  { mr_calls : exists cs, calls s' = calls s ++ cs /\ Forall right_call cs;
    mr_memory :
      Forall
        (fun tr =>
           In tr (items (memory (agent s))) \/ tr_action tr = K_RIGHT)
        (items (memory (agent s'))) }.

Lemma moved_right_refl (s : st) : moved_right s s.
Proof.
  split.
  - exists []. now rewrite app_nil_r.
  - apply Forall_forall. now left.
Qed.

Lemma moved_right_trans (s1 s2 s3 : st) :
  moved_right s1 s2 -> moved_right s2 s3 -> moved_right s1 s3.
Proof.
  intros [(c1 & E1 & F1) M1] [(c2 & E2 & F2) M2]. split.
  - exists (c1 ++ c2). rewrite E2, E1, app_assoc. split; [reflexivity|].
    apply Forall_app. now split.
  - rewrite Forall_forall in *. intros tr Hin.
    destruct (M2 tr Hin) as [Hold|Hr]; [now apply M1|now right].
Qed.

(** Same memory, calls extended by right calls. *)
Lemma moved_right_calls (s s' : st) (cs : list call) :
  items (memory (agent s')) = items (memory (agent s)) ->
  calls s' = calls s ++ cs -> Forall right_call cs ->
  moved_right s s'.
Proof.
  intros Hm Hc Hcs. split.
  - now exists cs.
  - rewrite Hm. apply Forall_forall. now left.
Qed.

Definition keeps (A : Type) (m : M A) : Prop :=
  forall s, moved_right s (state_of (m s)).

Lemma keeps_ret (A : Type) (a : A) : keeps (ret a).
Proof. intro s. apply moved_right_refl. Qed.

Lemma keeps_raise (A : Type) (e : exn) : keeps (raise (A := A) e).
Proof. intro s. apply moved_right_refl. Qed.

Lemma keeps_bind (A B : Type) (m : M A) (k : A -> M B) :
  keeps m -> (forall a, keeps (k a)) -> keeps (bind m k).
Proof.
  intros Hm Hk s. unfold bind. specialize (Hm s).
  destruct (m s) as [a s1|e s1]; [|exact Hm].
  exact (moved_right_trans Hm (Hk a s1)).
Qed.

Lemma keeps_get_state : keeps Agent_get_state.
Proof.
  intro s. unfold Agent_get_state.
  destruct (get_pacman_pos (game s)) as [pac_row pac_col].
  destruct (get_surroundings (game s)) as [[[c_up c_right] c_down] c_left].
  apply moved_right_refl.
Qed.

Lemma keeps_randint (lo hi : Z) : keeps (random_randint lo hi).
Proof.
  intro s. unfold random_randint.
  destruct (randint lo hi (rng s)) as [x r].
  apply moved_right_calls with (cs := []);
    [reflexivity|simpl; now rewrite app_nil_r|constructor].
Qed.

Lemma keeps_get_action (state : State) : keeps (Agent_get_action state).
Proof.
  unfold Agent_get_action.
  apply keeps_bind.
  { intro s. apply moved_right_calls with (cs := []);
      [reflexivity|simpl; now rewrite app_nil_r|constructor]. }
  intros _. apply keeps_bind; [apply keeps_randint|].
  intros x s. destruct (x <? epsilon (agent s))%Z.
  - apply (@keeps_bind _ _ (random_randint 0 3)
             (fun move => ret (key_of_move move)));
      [apply keeps_randint|intro move; apply keeps_ret].
  - destruct (model (agent s)); apply moved_right_refl.
Qed.

Lemma keeps_game_update : keeps (call_game_update K_RIGHT).
Proof.
  intro s. unfold call_game_update.
  destruct (game_update K_RIGHT (game s)) as [r g].
  apply moved_right_calls with (cs := [Call_update K_RIGHT]);
    [reflexivity|reflexivity|].
  now repeat constructor.
Qed.

Lemma keeps_train_step (args : train_args Rew) :
  right_call (Call_train_step args) -> keeps (call_train_step args).
Proof.
  intros Hr s. unfold call_train_step.
  destruct (trainer (agent s)) as [t|]; [|apply moved_right_refl].
  apply moved_right_calls with (cs := [Call_train_step args]);
    [reflexivity|reflexivity|].
  now repeat constructor.
Qed.

Lemma keeps_remember state reward next_state done :
  keeps (Agent_remember state K_RIGHT reward next_state done).
Proof.
  intro s. split.
  - exists []. simpl. now rewrite app_nil_r.
  - apply Forall_forall. intros tr Hin. simpl in Hin.
    apply deque_append_In in Hin. destruct Hin as [Hin| ->];
      [now left|now right].
Qed.

Lemma keeps_train_long_memory : keeps Agent_train_long_memory.
Proof.
  unfold Agent_train_long_memory. apply keeps_bind.
  - intro s. destruct (Z.of_nat _ >? BATCH_SIZE)%Z.
    + destruct (rand_sample (items (memory (agent s))) BATCH_SIZE (rng s))
        as [sample r].
      apply moved_right_calls with (cs := []);
        [reflexivity|simpl; now rewrite app_nil_r|constructor].
    + apply moved_right_refl.
  - intros mini_sample s. unfold bind, unzip5.
    destruct mini_sample as [|tr l]; [apply moved_right_refl|].
    cbn [ret]. now apply keeps_train_step.
Qed.

Lemma keeps_game_over record score : keeps (train_game_over record score).
Proof.
  unfold train_game_over. apply keeps_bind.
  { intro s. apply moved_right_calls with (cs := []);
      [reflexivity|simpl; now rewrite app_nil_r|constructor]. }
  intros _. apply keeps_bind; [apply keeps_train_long_memory|]. intros _.
  apply keeps_bind; [|intros _; apply keeps_ret].
  intro s.
  apply moved_right_calls
    with (cs := [Call_print (n_games (agent s)) score
                   (if (score >? record)%Z then score else record)]);
    [reflexivity|reflexivity|].
  now repeat constructor.
Qed.

Lemma keeps_after_action record state_old final_move :
  keeps (train_after_action record state_old final_move).
Proof.
  unfold train_after_action.
  apply keeps_bind; [apply keeps_game_update|].
  intros [[reward done] score].
  apply keeps_bind; [apply keeps_get_state|]. intro state_new.
  apply keeps_bind; [now apply keeps_train_step|]. intros _.
  apply keeps_bind; [apply keeps_remember|]. intros _.
  destruct done; [apply keeps_game_over|apply keeps_ret].
Qed.

Lemma keeps_train_body record : keeps (train_body record).
Proof.
  unfold train_body.
  apply keeps_bind; [apply keeps_get_state|]. intro state_old.
  apply keeps_bind; [apply keeps_get_action|]. intro final_move.
  apply keeps_after_action.
Qed.

Lemma keeps_train_loop n record : keeps (train_loop n record).
Proof.
  revert record. induction n as [|n IH]; intro record; cbn [train_loop].
  - apply keeps_ret.
  - apply keeps_bind; [apply keeps_train_body|]. intro record'. apply IH.
Qed.

(** *** A pass that completes *)

Lemma bind_Ok (A B : Type) (m : M A) (k : A -> M B) s r s' :
  bind m k s = Ok r s' -> exists a s1, m s = Ok a s1 /\ k a s1 = Ok r s'.
Proof.
  unfold bind. destruct (m s) as [a s1|e s1]; [|discriminate].
  intro E. now exists a, s1.
Qed.

(** [quiet m]: [m] leaves the replay memory as it is. *)
Definition quiet (A : Type) (m : M A) : Prop :=
  forall s, memory (agent (state_of (m s))) = memory (agent s).

Lemma quiet_ret (A : Type) (a : A) : quiet (ret a).
Proof. intro s. reflexivity. Qed.

Lemma quiet_bind (A B : Type) (m : M A) (k : A -> M B) :
  quiet m -> (forall a, quiet (k a)) -> quiet (bind m k).
Proof.
  intros Hm Hk s. unfold bind. specialize (Hm s).
  destruct (m s) as [a s1|e s1]; [|exact Hm].
  rewrite (Hk a s1). exact Hm.
Qed.

Lemma quiet_train_step (args : train_args Rew) : quiet (call_train_step args).
Proof.
  intro s. unfold call_train_step. now destruct (trainer (agent s)).
Qed.

Lemma quiet_train_long_memory : quiet Agent_train_long_memory.
Proof.
  unfold Agent_train_long_memory. apply quiet_bind.
  - intro s. destruct (Z.of_nat _ >? BATCH_SIZE)%Z; [|reflexivity].
    now destruct (rand_sample (items (memory (agent s))) BATCH_SIZE (rng s)).
  - intro mini_sample. apply quiet_bind; [|apply quiet_train_step].
    intro s. unfold unzip5. now destruct mini_sample.
Qed.

Lemma quiet_game_over record score : quiet (train_game_over record score).
Proof.
  unfold train_game_over. apply quiet_bind; [intro s; reflexivity|].
  intros _. apply quiet_bind; [apply quiet_train_long_memory|].
  intros _. apply quiet_bind; [intro s; reflexivity|].
  intros _. apply quiet_ret.
Qed.

Lemma get_state_Ok (s : st) : exists state, Agent_get_state s = Ok state s.
Proof.
  unfold Agent_get_state.
  destruct (get_pacman_pos (game s)) as [pac_row pac_col].
  destruct (get_surroundings (game s)) as [[[c_up c_right] c_down] c_left].
  eexists. reflexivity.
Qed.

(** [silent m]: [m] makes no call and leaves the replay memory as it is. *)
Definition silent (A : Type) (m : M A) : Prop :=
  forall s,
    calls (state_of (m s)) = calls s
    /\ memory (agent (state_of (m s))) = memory (agent s).

Lemma silent_ret (A : Type) (a : A) : silent (ret a).
Proof. intro s. now split. Qed.

Lemma silent_bind (A B : Type) (m : M A) (k : A -> M B) :
  silent m -> (forall a, silent (k a)) -> silent (bind m k).
Proof.
  intros Hm Hk s. unfold bind. specialize (Hm s).
  destruct (m s) as [a s1|e s1]; [|exact Hm].
  destruct (Hk a s1) as [Hc Hmem]. cbn [state_of] in Hm.
  destruct Hm as [Hc0 Hmem0]. split; congruence.
Qed.

Lemma silent_randint (lo hi : Z) : silent (random_randint lo hi).
Proof.
  intro s. unfold random_randint.
  destruct (randint lo hi (rng s)) as [x r]. now split.
Qed.

Lemma get_action_frame (state : State) : silent (Agent_get_action state).
Proof.
  unfold Agent_get_action.
  apply silent_bind; [intro s; now split|]. intros _.
  apply silent_bind; [apply silent_randint|].
  intros x s. destruct (x <? epsilon (agent s))%Z.
  - apply (@silent_bind _ _ (random_randint 0 3)
             (fun move => ret (key_of_move move)));
      [apply silent_randint|intro move; apply silent_ret].
  - destruct (model (agent s)); now split.
Qed.

Lemma deque_append_last (A : Type) (d : deque A) (x : A) :
  (0 < maxlen d)%Z -> exists before, items (deque_append d x) = before ++ [x].
Proof.
  intro Hpos. unfold deque_append. cbn [items].
  destruct (Z.ltb_spec (maxlen d) (Z.of_nat (length (items d ++ [x]))))
    as [Hlt|Hge].
  - destruct (items d) as [|y l].
    + simpl in Hlt. lia.
    + now exists l.
  - now exists (items d).
Qed.

Lemma train_body_Ok record (s : st) r s' :
  train_body record s = Ok r s' ->
  exists state_old state_new reward done rest,
    calls s'
    = calls s ++ Call_update K_RIGHT
        :: Call_train_step (One state_old K_RIGHT reward state_new done)
        :: rest
    /\ ((0 < maxlen (memory (agent s)))%Z ->
        exists before,
          items (memory (agent s'))
          = before ++ [(state_old, K_RIGHT, reward, state_new, done)]).
Proof.
  unfold train_body. intro Hrun.
  apply bind_Ok in Hrun. destruct Hrun as (state_old & s0 & Hst & Hrun).
  destruct (get_state_Ok s) as [st0 Hst0]. rewrite Hst0 in Hst.
  injection Hst as -> <-.
  apply bind_Ok in Hrun. destruct Hrun as (fm & s1 & Hact & Hrun).
  destruct (get_action_frame state_old s) as [Hc1 Hm1].
  rewrite Hact in Hc1, Hm1. cbn [state_of] in Hc1, Hm1.
  unfold train_after_action in Hrun.
  apply bind_Ok in Hrun. destruct Hrun as ([[reward done] score] & s2 & Hup & Hrun).
  unfold call_game_update in Hup.
  destruct (game_update K_RIGHT (game s1)) as [rds g]. injection Hup as -> <-.
  apply bind_Ok in Hrun. destruct Hrun as (state_new & s3 & Hst & Hrun).
  match type of Hst with Agent_get_state ?x = _ =>
    destruct (get_state_Ok x) as [st3 Hst3]; rewrite Hst3 in Hst end.
  injection Hst as -> <-.
  apply bind_Ok in Hrun. destruct Hrun as ([] & s4 & Hshort & Hrun).
  unfold Agent_train_short_memory, call_train_step in Hshort.
  cbn [agent add_call set_game] in Hshort.
  destruct (trainer (agent s1)) as [t|]; [|discriminate].
  injection Hshort as <-.
  apply bind_Ok in Hrun. destruct Hrun as ([] & s5 & Hrem & Hrun).
  unfold Agent_remember in Hrem. injection Hrem as <-.
  match type of Hrun with ?m ?x = _ =>
    assert (Hk : moved_right x (state_of (m x)))
      by (destruct done; [apply keeps_game_over|apply keeps_ret]);
    assert (Hq : memory (agent (state_of (m x))) = memory (agent x))
      by (destruct done; [apply quiet_game_over|apply quiet_ret])
  end.
  rewrite Hrun in Hk, Hq. cbn [state_of] in Hk, Hq.
  destruct Hk as [(rest & Hcalls & _) _].
  exists state_old, state_new, reward, done, rest. split.
  - rewrite Hcalls. cbn [calls set_agent add_call set_game].
    rewrite Hc1, <- !app_assoc. reflexivity.
  - intro Hpos. rewrite Hq. cbn [agent set_agent remember memory add_call].
    apply deque_append_last. now rewrite Hm1.
Qed.

(** C10.  Whatever the state and whatever [get_action] returns, over any
    number of passes of the loop of [train] every [game.update] call and
    every single-transition [train_step] call carries [K_RIGHT], and every
    transition that entered the replay memory has [K_RIGHT] as its action;
    the rest of a pass is the same for any move that [get_action]
    returned; and a pass that completes has updated the game with
    [K_RIGHT], trained the short memory on a transition with action
    [K_RIGHT] and (the memory having room for one item or more) appended
    that transition to the memory. *)
Theorem train_moves_right (n : nat) (record : Z) (s : st) :
  let s' := state_of (train_loop n record s) in
  (exists cs, calls s' = calls s ++ cs /\ Forall right_call cs)
  /\ Forall
       (fun tr =>
          In tr (items (memory (agent s))) \/ tr_action tr = K_RIGHT)
       (items (memory (agent s')))
  /\ (forall state_old move1 move2,
        train_after_action record state_old move1
        = train_after_action record state_old move2)
  /\ forall r s1,
       train_body record s = Ok r s1 ->
       exists state_old state_new reward done rest,
         calls s1
         = calls s ++ Call_update K_RIGHT
             :: Call_train_step (One state_old K_RIGHT reward state_new done)
             :: rest
         /\ ((0 < maxlen (memory (agent s)))%Z ->
             exists before,
               items (memory (agent s1))
               = before ++ [(state_old, K_RIGHT, reward, state_new, done)]).
Proof.
  destruct (keeps_train_loop n record s) as [Hc Hm].
  split; [exact Hc|]. split; [exact Hm|]. split; [reflexivity|].
  intros r s1. apply train_body_Ok.
Qed.

(** *** More on the agent *)

Lemma ghosts_fold (ghosts : list (Z * Z)) (state : State) :
  fold_left (fun state pos => state ++ [fst pos] ++ [snd pos]) ghosts state
  = state ++ flat_map (fun pos => [fst pos; snd pos]) ghosts.
Proof.
  revert state. induction ghosts as [|pos ghosts IH]; intro state.
  - simpl. now rewrite app_nil_r.
  - cbn [fold_left flat_map]. rewrite IH, <- !app_assoc. reflexivity.
Qed.

(** X12.  [get_state] always returns, changes nothing, and its vector is
    Pac-Man's row and column, the four surroundings, the score, then the
    row and the column of every ghost in order: [7 + 2 * ghosts]
    entries. *)
Theorem get_state_vector (s : st) :
  let g := game s in
  let state :=
    [fst (get_pacman_pos g); snd (get_pacman_pos g);
     fst (fst (fst (get_surroundings g))); snd (fst (fst (get_surroundings g)));
     snd (fst (get_surroundings g)); snd (get_surroundings g);
     get_score g]
    ++ flat_map (fun pos => [fst pos; snd pos]) (get_ghosts_pos g) in
  Agent_get_state s = Ok state s
  /\ length state = 7 + 2 * length (get_ghosts_pos g).
Proof.
  intros g state. split.
  - unfold Agent_get_state, state, g.
    destruct (get_pacman_pos (game s)) as [pac_row pac_col].
    destruct (get_surroundings (game s)) as [[[c_up c_right] c_down] c_left].
    now rewrite ghosts_fold.
  - unfold state. rewrite length_app. cbn [length]. f_equal.
    induction (get_ghosts_pos g) as [|pos l IH]; [reflexivity|].
    cbn [flat_map app length]. rewrite IH. lia.
Qed.

(** [get_action], branch by branch. *)
Lemma get_action_eq (state : State) (s : st) :
  let xr := randint 0 200 (rng s) in
  let ag := agent s in
  let s0 :=
    set_rng (snd xr)
      (set_agent
         {| n_games := n_games ag; epsilon := 80 - n_games ag;
            gamma := gamma ag; memory := memory ag; model := model ag;
            trainer := trainer ag |} s) in
  Agent_get_action state s
  = if (fst xr <? 80 - n_games ag)%Z then
      Ok (key_of_move (fst (randint 0 3 (snd xr))))
        (set_rng (snd (randint 0 3 (snd xr))) s0)
    else
      match model ag with
      | None => Raise AttributeError s0
      | Some m => Ok (key_of_move (predict_argmax m state)) s0
      end.
Proof.
  unfold Agent_get_action, bind, set_epsilon, random_randint, ret.
  cbn [agent set_agent set_rng rng epsilon model].
  destruct (randint 0 200 (rng s)) as [x r].
  cbn [fst snd agent set_agent set_rng rng epsilon model].
  destruct (x <? 80 - n_games (agent s))%Z; [|reflexivity].
  cbn [rng]. now destruct (randint 0 3 r) as [move r'].
Qed.

(** X13.  Once eighty games or more have been played the exploration is
    over: when the number drawn by [randint(0, 200)] is not negative,
    [get_action] draws that one number, sets [epsilon] to [80 - n_games] and returns the
    move that the model prefers; it raises [AttributeError] when there is
    no model. *)
Theorem get_action_exploits (state : State) (s : st) :
  (0 <= fst (randint 0 200 (rng s)))%Z ->
  (80 <= n_games (agent s))%Z ->
  exists s1,
    Agent_get_action state s
    = match model (agent s) with
      | Some m => Ok (key_of_move (predict_argmax m state)) s1
      | None => Raise AttributeError s1
      end
    /\ epsilon (agent s1) = (80 - n_games (agent s))%Z
    /\ rng s1 = snd (randint 0 200 (rng s))
    /\ calls s1 = calls s
    /\ memory (agent s1) = memory (agent s).
Proof.
  intros Hlo Hn. pose proof (get_action_eq state s) as E. cbv zeta in E.
  destruct (Z.ltb_spec (fst (randint 0 200 (rng s)))
              (80 - n_games (agent s))) as [Hlt|_]; [lia|].
  eexists. split; [rewrite E; reflexivity|]. now repeat split.
Qed.

(** X14.  [train_long_memory] on a memory of at most [BATCH_SIZE]
    transitions draws no random number: on the empty memory it raises
    [ValueError] (nothing to unpack); without a trainer it raises
    [AttributeError]; otherwise it makes one [train_step] call whose five
    columns, put side by side again, are the whole memory in order, and it
    leaves the memory, the game and the random source as they were. *)
Theorem train_long_memory_small (s : st) :
  (Z.of_nat (length (items (memory (agent s)))) <= BATCH_SIZE)%Z ->
  let mem := items (memory (agent s)) in
  (mem = [] -> Agent_train_long_memory s = Raise ValueError s)
  /\ (mem <> [] -> trainer (agent s) = None ->
      Agent_train_long_memory s = Raise AttributeError s)
  /\ (mem <> [] -> trainer (agent s) <> None ->
      exists states actions rewards next_states dones s',
        Agent_train_long_memory s = Ok tt s'
        /\ calls s'
           = calls s
             ++ [Call_train_step
                   (Many states actions rewards next_states dones)]
        /\ combine (combine (combine (combine states actions) rewards)
                      next_states) dones = mem
        /\ memory (agent s') = memory (agent s)
        /\ game s' = game s /\ rng s' = rng s).
Proof.
  intros Hlen mem.
  assert (Hgt : (Z.of_nat (length mem) >? BATCH_SIZE)%Z = false).
  { unfold mem. rewrite Z.gtb_ltb. apply Z.ltb_ge. exact Hlen. }
  unfold Agent_train_long_memory, bind. fold mem. rewrite Hgt.
  split; [|split].
  - intros ->. reflexivity.
  - intros Hne Htr. destruct mem as [|tr l]; [congruence|].
    cbn [unzip5 ret]. unfold call_train_step. now rewrite Htr.
  - intros Hne Htr. destruct mem as [|tr l] eqn:Hmem; [congruence|].
    cbn [unzip5 ret]. unfold call_train_step.
    destruct (trainer (agent s)) as [t|]; [|congruence].
    do 5 eexists. eexists. split; [reflexivity|].
    split; [reflexivity|]. split; [|now repeat split].
    clear. generalize (tr :: l). intro l0.
    induction l0 as [|[[[[a b] c] d] e] l0 IH]; [reflexivity|].
    cbn [map combine tr_action]. now rewrite IH.
Qed.

(** X15.  With neither a model nor a trainer (the agent that [Agent()]
    builds) the first pass of [train] raises [AttributeError] whatever the
    game and the random source: either in [get_action], before the game is
    touched, or in [train_short_memory], after one [game.update] with
    [K_RIGHT]; nothing is remembered. *)
Theorem train_without_model_raises (n : nat) (record : Z) (s : st) :
  model (agent s) = None ->
  trainer (agent s) = None ->
  exists s',
    train_loop (S n) record s = Raise AttributeError s'
    /\ memory (agent s') = memory (agent s)
    /\ (calls s' = calls s \/ calls s' = calls s ++ [Call_update K_RIGHT]).
Proof.
  intros Hmodel Htrainer. cbn [train_loop]. unfold bind at 1.
  unfold train_body, bind at 1.
  destruct (get_state_Ok s) as [state_old ->].
  unfold bind at 1. rewrite get_action_eq. cbv zeta. rewrite Hmodel.
  destruct (fst (randint 0 200 (rng s)) <? 80 - n_games (agent s))%Z.
  - unfold train_after_action, bind at 1, call_game_update.
    cbn [game set_rng set_agent].
    destruct (game_update K_RIGHT (game s)) as [[[reward done] score] g].
    unfold bind at 1.
    match goal with |- context [Agent_get_state ?x] =>
      destruct (get_state_Ok x) as [state_new ->] end.
    unfold bind at 1, Agent_train_short_memory, call_train_step.
    cbn [agent add_call set_game set_rng set_agent trainer]. rewrite Htrainer.
    eexists. split; [reflexivity|]. split; [reflexivity|]. now right.
  - eexists. split; [reflexivity|]. split; [reflexivity|]. now left.
Qed.


End Agent.

Arguments Raise {G Rng Model Trainer Rew A} e s.
Arguments raise {G Rng Model Trainer Rew A} e _.

(** *** A small game to run [train] on

    The game is a step counter: Pac-Man sits in row [0] at the column of
    the counter, there is one ghost, a move pays the counter and ends the
    game at every third step.  [randint] returns the lower bound plus the
    random counter (modulo the range); the model always prefers move [2]
    ([K_DOWN]). *)
Definition counter_game : Game nat Z :=
  {| get_pacman_pos := fun g => (0, Z.of_nat g)%Z;
     get_ghosts_pos := fun g => [(7, 9)%Z];
     get_surroundings := fun _ => (1, 0, 1, 0)%Z;
     get_score := fun g => (10 * Z.of_nat g)%Z;
     game_update :=
       fun _ g => ((Z.of_nat g, (S g) mod 3 =? 0, (10 * Z.of_nat (S g))%Z),
                   S g) |}.

Definition counter_random : Random nat :=
  {| randint := fun lo hi r => ((lo + Z.of_nat r mod (hi - lo + 1))%Z, S r);
     rand_sample := fun A l k r => (firstn (Z.to_nat k) l, S r) |}.

Definition down_learner : Learner unit unit Z :=
  {| predict_argmax := fun _ _ => 2%Z; train_step := fun t _ => t |}.

(** A state with the agent of [Agent()] and one with a model and a trainer
    added; the random counter starts at [r]. *)
Definition st_init (r : nat) : @st nat nat unit unit Z :=
  {| agent := Agent_init; game := 0; rng := r; calls := [] |}.

Definition st_ready (r : nat) : @st nat nat unit unit Z :=
  {| agent :=
       {| n_games := 0; epsilon := 0; gamma := 0;
          memory := deque_new Transition MAX_MEMOMRY;
          model := Some tt; trainer := Some tt |};
     game := 0; rng := r; calls := [] |}.

(** With the agent of [Agent()] the first pass raises: in [get_action]
    when the draw is [80] or more ([self.model] is [None]), and otherwise in
    [train_short_memory] ([self.trainer] is [None]), after the game has been
    updated with [K_RIGHT] and before anything is remembered. *)
Example train_new_agent_raises :
  (exists s',
      train_loop (Gm := counter_game) (Rnd := counter_random)
        (Lrn := down_learner) 1 0 (st_init 100) = Raise AttributeError s'
      /\ calls s' = [])
  /\ exists s',
       train_loop (Gm := counter_game) (Rnd := counter_random)
         (Lrn := down_learner) 1 0 (st_init 0) = Raise AttributeError s'
       /\ calls s' = [Call_update K_RIGHT]
       /\ items (memory (agent s')) = [].
Proof.
  split; eexists; (split; [vm_compute; reflexivity|]); now repeat split.
Qed.

(** With a model and a trainer the pass completes: [get_action] returns
    [K_DOWN], and the game, the trainer and the memory get [K_RIGHT]. *)
Example train_ready_plays_right :
  (exists s1,
      Agent_get_action (G := nat) (Rnd := counter_random)
        (Lrn := down_learner) [] (st_ready 100) = Ok K_DOWN s1)
  /\ exists s' state_old state_new,
       train_loop (Gm := counter_game) (Rnd := counter_random)
         (Lrn := down_learner) 1 0 (st_ready 100) = Ok 0%Z s'
       /\ calls s'
          = [Call_update K_RIGHT;
             Call_train_step (One state_old K_RIGHT 0%Z state_new false)]
       /\ items (memory (agent s'))
          = [(state_old, K_RIGHT, 0%Z, state_new, false)].
Proof.
  split.
  - eexists. vm_compute. reflexivity.
  - eexists. eexists. eexists.
    split; [vm_compute; reflexivity|]. split; reflexivity.
Qed.

Lemma train_moves_right_witness :
  exists r s1 state_old state_new reward done rest before,
    train_body (Gm := counter_game) (Rnd := counter_random)
      (Lrn := down_learner) 0 (st_ready 100) = Ok r s1
    /\ calls s1
       = Call_update K_RIGHT
           :: Call_train_step (One state_old K_RIGHT reward state_new done)
           :: rest
    /\ items (memory (agent s1))
       = before ++ [(state_old, K_RIGHT, reward, state_new, done)].
Proof.
  destruct (train_body (Gm := counter_game) (Rnd := counter_random)
              (Lrn := down_learner) 0 (st_ready 100)) as [r s1|e s1] eqn:E;
    [|vm_compute in E; discriminate].
  destruct (train_moves_right (Gm := counter_game) (Rnd := counter_random)
              (Lrn := down_learner) 1 0 (st_ready 100)) as (_ & _ & _ & Hok).
  destruct (Hok r s1 E) as (so & sn & rw & d & rest & Hc & Hm).
  destruct (Hm eq_refl) as [before Hb].
  exists r, s1, so, sn, rw, d, rest, before.
  split; [reflexivity|]. split; [exact Hc|exact Hb].
Defined.

Lemma replay_memory_fifo_witness :
  let tr := fun n : nat => (([] : State), K_RIGHT, Z.of_nat n, ([] : State), false) in
  let rest := map tr (seq 1 (Z.to_nat MAX_MEMOMRY)) in
  items (memory (fold_left (remember (Model := unit) (Trainer := unit))
                   (tr 0 :: rest) Agent_init))
  = rest.
Proof.
  intros tr rest.
  destruct (replay_memory_fifo (Model := unit) (Trainer := unit) (tr 0 :: rest))
    as (_ & _ & _ & Hfull).
  apply (Hfull (tr 0) rest).
  - reflexivity.
  - unfold rest. rewrite length_map, length_seq. exact MAX_MEMOMRY_nat.
Defined.

(** An agent with a model and a trainer that has played eighty games, and
    one that remembers one transition. *)
Definition st_veteran : @st nat nat unit unit Z :=
  {| agent :=
       {| n_games := 80; epsilon := 0; gamma := 0;
          memory := deque_new Transition MAX_MEMOMRY;
          model := Some tt; trainer := Some tt |};
     game := 0; rng := 0; calls := [] |}.

Definition st_one : @st nat nat unit unit Z :=
  {| agent :=
       {| n_games := 0; epsilon := 0; gamma := 0;
          memory :=
            {| maxlen := MAX_MEMOMRY;
               items := [([0], K_RIGHT, 1, [1], true)%Z] |};
          model := Some tt; trainer := Some tt |};
     game := 0; rng := 0; calls := [] |}.

Lemma get_action_exploits_witness :
  exists s1,
    Agent_get_action (G := nat) (Rnd := counter_random) (Lrn := down_learner)
      [] st_veteran = Ok K_DOWN s1
    /\ epsilon (agent s1) = 0%Z.
Proof.
  destruct (get_action_exploits (G := nat) (Rnd := counter_random)
              (Lrn := down_learner) [] st_veteran) as (s1 & E & He & _).
  - vm_compute. discriminate.
  - vm_compute. discriminate.
  - exists s1. split; [exact E|exact He].
Defined.

Lemma train_long_memory_small_witness :
  exists states actions rewards next_states dones s',
    Agent_train_long_memory (G := nat) (Rnd := counter_random)
      (Lrn := down_learner) st_one = Ok tt s'
    /\ calls s'
       = [Call_train_step (Many states actions rewards next_states dones)]
    /\ combine (combine (combine (combine states actions) rewards)
                  next_states) dones
       = [([0], K_RIGHT, 1, [1], true)%Z].
Proof.
  destruct (train_long_memory_small (G := nat) (Rnd := counter_random)
              (Lrn := down_learner) st_one) as (_ & _ & Hok).
  - vm_compute. discriminate.
  - destruct Hok as (a & b & c & d & e & s' & Hrun & Hcalls & Hzip & _).
    + discriminate.
    + discriminate.
    + exists a, b, c, d, e, s'. repeat split; assumption.
Defined.

Lemma train_without_model_raises_witness :
  exists s',
    train_loop (Gm := counter_game) (Rnd := counter_random)
      (Lrn := down_learner) 1 0 (st_init 0) = Raise AttributeError s'
    /\ items (memory (agent s')) = [].
Proof.
  destruct (train_without_model_raises (Gm := counter_game)
              (Rnd := counter_random) (Lrn := down_learner)
              0 0 (st_init 0) eq_refl eq_refl) as (s' & Hrun & Hmem & _).
  exists s'. split; [exact Hrun|]. now rewrite Hmem.
Defined.


End DQN.
